(** * pooltool: event selection, event constructors and the ruleset skeleton

    A shallow embedding of
      - [pooltool/events/_events.py]           (event constructors),
      - [pooltool/evolution.py]                (earliest-event selection,
                                                algorithm registry, progress),
      - [pooltool/game/ruleset/datatypes.py]   (players, log, shot
                                                constraints, ruleset).

    Python floats are IEEE-754 binary64 values; they are modelled by the
    standard library's [spec_float] with its comparison [SFcompare] and its
    correctly rounded arithmetic at precision 53 and exponent bound 1024. *)

From Stdlib Require Import ZArith Lia List Bool String Ascii.
From Stdlib Require Import Floats.SpecFloat.
From Stdlib Require Import DecimalString.
Import ListNotations.
Local Open Scope string_scope.
Local Open Scope list_scope.

(* ------------------------------------------------------------------ *)
(** ** Python floats *)

Module PyFloat.

Definition float := spec_float.

Definition prec : Z := 53.
Definition emax : Z := 1024.

(** [np.inf] *)
Definition inf : float := S754_infinity false.
Definition nan : float := S754_nan.

(** [x < y], [x <= y], [x == y] on floats: false as soon as one side is NaN. *)
Definition ltb (x y : float) : bool := SFltb x y.
Definition leb (x y : float) : bool := SFleb x y.
Definition eqb (x y : float) : bool := SFeqb x y.

(** [x + y] and [x - y], rounded to nearest even. *)
Definition add (x y : float) : float := SFadd prec emax x y.
Definition sub (x y : float) : float := SFsub prec emax x y.

Definition is_nan (x : float) : bool :=
  match x with S754_nan => true | _ => false end.

(** The float nearest to [m * 2^e]. *)
Definition of_dyadic (m e : Z) : float := binary_normalize prec emax m e false.

End PyFloat.

(* ------------------------------------------------------------------ *)
(** ** Order facts about float comparison *)

Module PyFloatFacts.
Import PyFloat.

Local Open Scope Z_scope.

Ltac cmp_cases :=
  repeat match goal with
  | |- context [Z.compare ?a ?b] => destruct (Z.compare_spec a b)
  | H : context [Z.compare ?a ?b] |- _ => destruct (Z.compare_spec a b)
  | |- context [Pos.compare_cont Eq ?a ?b] =>
      change (Pos.compare_cont Eq a b) with (Pos.compare a b);
      destruct (Pos.compare_spec a b)
  | H : context [Pos.compare_cont Eq ?a ?b] |- _ =>
      change (Pos.compare_cont Eq a b) with (Pos.compare a b) in H;
      destruct (Pos.compare_spec a b)
  end.

Ltac float_order :=
  unfold ltb, leb, eqb, SFltb, SFleb, SFeqb, SFcompare;
  intros;
  repeat match goal with
  | x : float |- _ => destruct x
  | x : spec_float |- _ => destruct x
  | s : bool |- _ => destruct s
  end;
  simpl in *; try congruence;
  cmp_cases; simpl in *; subst; try congruence; try lia.

Lemma ltb_irrefl (x : float) : ltb x x = false.
Proof. revert x. float_order. Qed.

Lemma ltb_leb (x y : float) : ltb x y = true -> leb x y = true.
Proof. revert x y. float_order. Qed.

Lemma leb_false_ltb (x y : float) : leb x y = false -> ltb x y = false.
Proof. revert x y. float_order. Qed.

(** [y] is not below [d] and [x] is strictly below [d]: [y] is not
    below-or-equal [x]. *)
Lemma not_ltb_ltb_not_leb (x y d : float) :
  ltb y d = false -> ltb x d = true -> leb y x = false.
Proof. revert x y d. float_order. Qed.

(** [y] is not below [d] and [x] is below-or-equal [d]: [y] is not below [x]. *)
Lemma not_ltb_leb_not_ltb (x y d : float) :
  ltb y d = false -> leb x d = true -> ltb y x = false.
Proof. revert x y d. float_order. Qed.

Lemma leb_inf_not_nan (x : float) : leb x inf = true <-> is_nan x = false.
Proof. split; revert x; float_order. Qed.

Lemma ltb_not_nan_l (x y : float) : ltb x y = true -> is_nan x = false.
Proof. revert x y. float_order. Qed.

Lemma ltb_inf_r (x : float) :
  ltb x inf = false <-> x = inf \/ x = nan.
Proof.
  split.
  - revert x; unfold inf, nan. float_order; auto.
  - intros [-> | ->]; reflexivity.
Qed.

Lemma ltb_below_inf (x d : float) : ltb x d = true -> ltb x inf = true.
Proof. revert x d. unfold inf. float_order. Qed.

Lemma ltb_not_leb_sym (x y : float) : ltb x y = true -> leb y x = false.
Proof. revert x y. float_order. Qed.

(** [y] is not below-or-equal [d] and [x] is strictly below [d]: [y] is not
    below-or-equal [x]. *)
Lemma not_leb_ltb_not_leb (x y d : float) :
  leb y d = false -> ltb x d = true -> leb y x = false.
Proof.
  intros H1 H2. apply not_ltb_ltb_not_leb with (d := d); auto.
  apply leb_false_ltb; exact H1.
Qed.

Lemma not_leb_inf_not_ltb (x y : float) :
  leb y inf = false -> ltb y x = false.
Proof. revert x y. unfold inf. float_order. Qed.

Lemma not_nan_not_ltb_inf (x : float) :
  is_nan x = false -> ltb x inf = false -> x = inf.
Proof. revert x. unfold inf. float_order. Qed.

(** Whatever [x] is, [x + inf] is not below +infinity. *)
Lemma add_inf_not_below_inf (x : float) : ltb (add x inf) inf = false.
Proof. destruct x as [sg | sg | | sg m e]; try destruct sg; reflexivity. Qed.

Lemma ltb_inf_leb_inf (x : float) : ltb x inf = true -> leb x inf = true.
Proof. apply ltb_leb. Qed.

Create HintDb float_order.
#[export] Hint Resolve ltb_irrefl ltb_leb leb_false_ltb not_ltb_ltb_not_leb
  not_ltb_leb_not_ltb ltb_below_inf ltb_not_leb_sym not_leb_ltb_not_leb
  not_leb_inf_not_ltb : float_order.

End PyFloatFacts.

(* ------------------------------------------------------------------ *)
(** ** Python exceptions and results *)

Module Py.

Inductive Exception : Type :=
| ValueError (msg : string)
| AssertionError (msg : string)
| OverflowError (msg : string)
| KeyError (key : string)
| TypeError (msg : string)
| IndexError
| AttributeError
| ZeroDivisionError.

(** The outcome of a call: a returned value or a raised exception. *)
Inductive Result (A : Type) : Type :=
| Ok (a : A)
| Raise (e : Exception).

Arguments Ok {A} a.
Arguments Raise {A} e.

Definition bind {A B : Type} (r : Result A) (k : A -> Result B) : Result B :=
  match r with
  | Ok a => k a
  | Raise e => Raise e
  end.

Definition completed {A : Type} (r : Result A) : bool :=
  match r with Ok _ => true | Raise _ => false end.

(** [int(x)] on a float: truncation toward zero; NaN and the infinities
    raise. *)
Definition int_of_float (x : PyFloat.float) : Result Z :=
  match x with
  | S754_nan => Raise (ValueError "cannot convert float NaN to integer")
  | S754_infinity _ =>
      Raise (OverflowError "cannot convert float infinity to integer")
  | S754_zero _ => Ok 0%Z
  | S754_finite sg m e => Ok (cond_Zopp sg (Z.shiftl (Zpos m) e))
  end.

(** The integer part of [m * 2^e]. *)
Definition integer_part (m : positive) (e : Z) : Z :=
  if (0 <=? e)%Z then (Zpos m * 2 ^ e)%Z else (Zpos m / 2 ^ (- e))%Z.

(** Truncation toward zero of a float's value, in arithmetic terms. *)
Definition trunc_toward_zero (x : PyFloat.float) : option Z :=
  match x with
  | S754_zero _ => Some 0%Z
  | S754_finite sg m e => Some (cond_Zopp sg (integer_part m e))
  | _ => None
  end.

(** The largest integer not above a float's value. *)
Definition floor_of_float (x : PyFloat.float) : option Z :=
  match x with
  | S754_zero _ => Some 0%Z
  | S754_finite sg m e =>
      Some (if (0 <=? e)%Z then (cond_Zopp sg (Zpos m) * 2 ^ e)%Z
            else (cond_Zopp sg (Zpos m) / 2 ^ (- e))%Z)
  | _ => None
  end.

(** The integer nearest to a float's value, a tie going to the even one. *)
Definition round_of_float (x : PyFloat.float) : option Z :=
  match x with
  | S754_zero _ => Some 0%Z
  | S754_finite sg m e =>
      if (0 <=? e)%Z then Some (cond_Zopp sg (Zpos m * 2 ^ e))%Z
      else
        let k := (2 ^ (- e))%Z in
        let q := (Zpos m / k)%Z in
        let r := (Zpos m mod k)%Z in
        let a := if (2 * r <? k)%Z then q
                 else if (k <? 2 * r)%Z then (q + 1)%Z
                 else if Z.even q then q else (q + 1)%Z in
        Some (cond_Zopp sg a)
  | _ => None
  end.

Lemma int_of_float_trunc (x : PyFloat.float) (z : Z) :
  int_of_float x = Ok z <-> trunc_toward_zero x = Some z.
Proof.
  destruct x as [sg | sg | | sg m e]; simpl;
    try (split; intros H; inversion H; reflexivity);
    try (split; intros H; discriminate H).
  assert (E : Z.shiftl (Zpos m) e = integer_part m e).
  { unfold integer_part. destruct (Z.leb_spec 0 e).
    - apply Z.shiftl_mul_pow2; assumption.
    - apply Z.shiftl_div_pow2; lia. }
  rewrite E. split; intros H; inversion H; reflexivity.
Qed.

(** On a float that is not negative, truncation is the floor. *)
Lemma trunc_floor_nonneg (x : PyFloat.float) :
  PyFloat.ltb x (S754_zero false) = false ->
  trunc_toward_zero x = floor_of_float x.
Proof.
  destruct x as [sg | sg | | sg m e]; simpl; auto.
  destruct sg; [discriminate |]. intros _. unfold integer_part. simpl.
  reflexivity.
Qed.

(** [str(n)] on a non-negative int. *)
Definition str_of_nat (n : nat) : string :=
  NilZero.string_of_uint (Nat.to_uint n).

(** [repr(s)] on a str of printable ASCII characters without quotes or
    backslashes (no escaping is then needed). *)
Definition repr_str (s : string) : string := ("'" ++ s ++ "'")%string.

(** [", ".join(l)] *)
Fixpoint join_comma (l : list string) : string :=
  match l with
  | [] => ""
  | [x] => x
  | x :: r => (x ++ ", " ++ join_comma r)%string
  end.

(** [str(l)] on a list of such strs. *)
Definition str_of_str_list (l : list string) : string :=
  ("[" ++ join_comma (map repr_str l) ++ "]")%string.

(** [enumerate(l)] *)
Fixpoint enumerate_from {A : Type} (k : nat) (l : list A) : list (nat * A) :=
  match l with
  | [] => []
  | x :: r => (k, x) :: enumerate_from (S k) r
  end.

Definition enumerate {A : Type} (l : list A) : list (nat * A) :=
  enumerate_from 0 l.

(** [d.keys()], [d.values()] and [k in d] on a dict kept in insertion order. *)
Definition keys {V : Type} (d : list (string * V)) : list string := map fst d.
Definition values {V : Type} (d : list (string * V)) : list V := map snd d.
Definition contains {V : Type} (d : list (string * V)) (k : string) : bool :=
  existsb (String.eqb k) (keys d).

Fixpoint get {V : Type} (d : list (string * V)) (k : string) : option V :=
  match d with
  | [] => None
  | (k', v) :: r => if String.eqb k k' then Some v else get r k
  end.

End Py.

Declare Scope py_scope.
Delimit Scope py_scope with py.
Notation "x <- c1 ;; c2" := (Py.bind c1 (fun x => c2))
  (at level 61, c1 at next level, right associativity) : py_scope.

(* ------------------------------------------------------------------ *)
(** ** Running minima over a list *)

Module MinFold.
Import PyFloat PyFloatFacts.

Section StrictMin.

Variable A : Type.
Variable key : A -> float.

(** One [if key(x) < best: best, who = key(x), x]. *)
Definition strict_step (st : float * option A) (x : A) : float * option A :=
  if ltb (key x) (fst st) then (key x, Some x) else st.

Definition strict_min (l : list A) : float * option A :=
  fold_left strict_step l (inf, None).

(** What the running minimum satisfies once [l] has been traversed: nothing
    in [l] is strictly below it, and the element kept is the first one to
    reach it. *)
Definition strict_min_ok (l : list A) (st : float * option A) : Prop :=
  (forall q, In q l -> ltb (key q) (fst st) = false) /\
  match snd st with
  | None => fst st = inf
  | Some p =>
      exists pre post,
        l = pre ++ p :: post /\ fst st = key p /\ ltb (key p) inf = true /\
        forall q, In q pre -> leb (key q) (key p) = false
  end.

Lemma strict_min_snoc (l : list A) (x : A) :
  strict_min (l ++ [x]) = strict_step (strict_min l) x.
Proof. unfold strict_min. rewrite fold_left_app. reflexivity. Qed.

Lemma strict_step_ok (l : list A) (st : float * option A) (x : A) :
  strict_min_ok l st -> strict_min_ok (l ++ [x]) (strict_step st x).
Proof.
  intros [Hall Hsel]. unfold strict_step.
  destruct (ltb (key x) (fst st)) eqn:Hlt.
  - split; simpl.
    + intros q Hq. apply in_app_or in Hq. destruct Hq as [Hq | [<- | []]].
      * apply leb_false_ltb.
        apply not_ltb_ltb_not_leb with (d := fst st); auto.
      * apply ltb_irrefl.
    + exists l, []. repeat split.
      * eapply ltb_below_inf; eauto.
      * intros q Hq. apply not_ltb_ltb_not_leb with (d := fst st); auto.
  - split.
    + intros q Hq. apply in_app_or in Hq. destruct Hq as [Hq | [<- | []]]; auto.
    + destruct (snd st) as [p|]; auto.
      destruct Hsel as (pre & post & -> & Hk & Hinf & Hpre).
      exists pre, (post ++ [x]). rewrite <- app_assoc. repeat split; auto.
Qed.

Lemma strict_min_spec (l : list A) : strict_min_ok l (strict_min l).
Proof.
  induction l as [| x l IH] using rev_ind.
  - split; simpl; [intros q [] | reflexivity].
  - rewrite strict_min_snoc. apply strict_step_ok. exact IH.
Qed.

End StrictMin.

Arguments strict_step {A} key st x.
Arguments strict_min {A} key l.
Arguments strict_min_ok {A} key l st.
Arguments strict_min_spec {A} key l.

(** All pairs [(x, y)] with [x] before [y] in [l], by position of [x], then
    of [y]. *)
Fixpoint unordered_pairs {A : Type} (l : list A) : list (A * A) :=
  match l with
  | [] => []
  | x :: r => map (pair x) r ++ unordered_pairs r
  end.

Lemma unordered_pairs_positions {A : Type} (l : list A) (a b : A) :
  In (a, b) (unordered_pairs l) <->
  exists i j, i < j /\ nth_error l i = Some a /\ nth_error l j = Some b.
Proof.
  induction l as [| x r IH]; simpl.
  - split; [intros [] | intros (i & j & _ & Hi & _); destruct i; discriminate].
  - rewrite in_app_iff, in_map_iff, IH. split.
    + intros [(y & Heq & Hy) | (i & j & Hij & Hi & Hj)].
      * inversion Heq; subst. apply In_nth_error in Hy. destruct Hy as [j Hj].
        exists 0, (S j). repeat split; auto. lia.
      * exists (S i), (S j). repeat split; auto. lia.
    + intros (i & j & Hij & Hi & Hj). destruct j as [| j]; [lia |].
      destruct i as [| i]; simpl in *.
      * left. inversion Hi; subst. exists b. split; auto.
        eapply nth_error_In; eauto.
      * right. exists i, j. repeat split; auto. lia.
Qed.

Lemma enumerate_from_app {A : Type} (l1 l2 : list A) (k : nat) :
  Py.enumerate_from k (l1 ++ l2) =
  Py.enumerate_from k l1 ++ Py.enumerate_from (k + List.length l1) l2.
Proof.
  revert k. induction l1 as [| x l1 IH]; intros k; simpl.
  - rewrite Nat.add_0_r. reflexivity.
  - rewrite IH. do 3 f_equal. lia.
Qed.

Lemma fold_left_filter {A S : Type} (f : S -> A -> S) (keep : A -> bool)
    (l : list A) (st : S) :
  fold_left (fun st x => if keep x then f st x else st) l st =
  fold_left f (filter keep l) st.
Proof.
  revert st. induction l as [| x l IH]; intros st; simpl; auto.
  destruct (keep x); simpl; auto.
Qed.

Lemma fold_left_map {A B S : Type} (f : S -> B -> S) (h : A -> B)
    (l : list A) (st : S) :
  fold_left f (map h l) st = fold_left (fun st x => f st (h x)) l st.
Proof.
  revert st. induction l as [| x l IH]; intros st; simpl; auto.
Qed.

(** A fold commutes with a change of state representation that the step
    respects. *)
Lemma fold_left_simulation {A S T : Type} (f : S -> A -> S) (f' : T -> A -> T)
    (enc : S -> T) (l : list A) (st : S) :
  (forall st x, f' (enc st) x = enc (f st x)) ->
  fold_left f' l (enc st) = enc (fold_left f l st).
Proof.
  intros H. revert st. induction l as [| x l IH]; intros st; simpl; auto.
  rewrite H. apply IH.
Qed.

Lemma fold_left_flat_map {A B S : Type} (f : S -> B -> S) (h : A -> list B)
    (l : list A) (st : S) :
  fold_left f (flat_map h l) st =
  fold_left (fun st x => fold_left f (h x) st) l st.
Proof.
  revert st. induction l as [| x l IH]; intros st; simpl; auto.
  rewrite fold_left_app. apply IH.
Qed.

End MinFold.

(* ------------------------------------------------------------------ *)
(** ** pooltool/events/_events.py *)

Module Events.
Import PyFloat.

(** [EventType]: the ten kinds the constructors below produce. *)
Inductive EventType : Set :=
| NONE
| BALL_BALL
| BALL_LINEAR_CUSHION
| BALL_CIRCULAR_CUSHION
| BALL_POCKET
| STICK_BALL
| SPINNING_STATIONARY
| ROLLING_STATIONARY
| ROLLING_SPINNING
| SLIDING_ROLLING.

Section Constructors.

  (** The object model lives outside the embedded files; the constructors
      are generic in it. *)
Variables Ball Cue LinearCushionSegment CircularCushionSegment Pocket : Type.

  (** What an agent can wrap: [NullObject()] or one of the five object
      kinds named in the constructors' signatures. *)
Inductive Object : Type :=
  | NullObject
  | OfBall (b : Ball)
  | OfCue (c : Cue)
  | OfLinearCushion (c : LinearCushionSegment)
  | OfCircularCushion (c : CircularCushionSegment)
  | OfPocket (p : Pocket).

  (** Modelled from the spec: [Agent] and [Agent.from_object] of
      pooltool/events/datatypes.py, which is not among the sources.  An
      agent refers to the participating object and carries a frozen copy of
      it exactly when [set_initial] is set. *)
Record Agent : Type := mkAgent {
    agent_obj : Object;
    agent_initial : option Object
  }.

Definition from_object (obj : Object) (set_initial : bool) : Agent :=
    {| agent_obj := obj;
       agent_initial := if set_initial then Some obj else None |}.

  (** Modelled from the spec: the [Event] record of
      pooltool/events/datatypes.py, with the three fields the constructors
      pass by keyword. *)
Record Event : Type := mkEvent {
    event_type : EventType;
    agents : list Agent;
    time : float
  }.

Definition null_event (time : float) (set_initial : bool) : Event :=
    {| event_type := NONE;
       agents := [from_object NullObject set_initial];
       time := time |}.

Definition ball_ball_collision
      (ball1 ball2 : Ball) (time : float) (set_initial : bool) : Event :=
    {| event_type := BALL_BALL;
       agents := [from_object (OfBall ball1) set_initial;
                  from_object (OfBall ball2) set_initial];
       time := time |}.

Definition ball_linear_cushion_collision
      (ball : Ball) (cushion : LinearCushionSegment)
      (time : float) (set_initial : bool) : Event :=
    {| event_type := BALL_LINEAR_CUSHION;
       agents := [from_object (OfBall ball) set_initial;
                  from_object (OfLinearCushion cushion) set_initial];
       time := time |}.

Definition ball_circular_cushion_collision
      (ball : Ball) (cushion : CircularCushionSegment)
      (time : float) (set_initial : bool) : Event :=
    {| event_type := BALL_CIRCULAR_CUSHION;
       agents := [from_object (OfBall ball) set_initial;
                  from_object (OfCircularCushion cushion) set_initial];
       time := time |}.

Definition ball_pocket_collision
      (ball : Ball) (pocket : Pocket) (time : float) (set_initial : bool)
      : Event :=
    {| event_type := BALL_POCKET;
       agents := [from_object (OfBall ball) set_initial;
                  from_object (OfPocket pocket) set_initial];
       time := time |}.

Definition stick_ball_collision
      (stick : Cue) (ball : Ball) (time : float) (set_initial : bool)
      : Event :=
    {| event_type := STICK_BALL;
       agents := [from_object (OfCue stick) set_initial;
                  from_object (OfBall ball) set_initial];
       time := time |}.

Definition spinning_stationary_transition
      (ball : Ball) (time : float) (set_initial : bool) : Event :=
    {| event_type := SPINNING_STATIONARY;
       agents := [from_object (OfBall ball) set_initial];
       time := time |}.

Definition rolling_stationary_transition
      (ball : Ball) (time : float) (set_initial : bool) : Event :=
    {| event_type := ROLLING_STATIONARY;
       agents := [from_object (OfBall ball) set_initial];
       time := time |}.

Definition rolling_spinning_transition
      (ball : Ball) (time : float) (set_initial : bool) : Event :=
    {| event_type := ROLLING_SPINNING;
       agents := [from_object (OfBall ball) set_initial];
       time := time |}.

Definition sliding_rolling_transition
      (ball : Ball) (time : float) (set_initial : bool) : Event :=
    {| event_type := SLIDING_ROLLING;
       agents := [from_object (OfBall ball) set_initial];
       time := time |}.

  (** The objects an event's agents refer to, in agent order. *)
Definition participants (e : Event) : list Object :=
    map agent_obj (agents e).

  (** An event's shape: its kind, its time and its participants. *)
Definition has_shape
      (e : Event) (k : EventType) (t : float) (objs : list Object) : Prop :=
    event_type e = k /\ time e = t /\ participants e = objs /\
    List.length (agents e) = List.length objs.

  (** C9.  Each of the ten constructors yields an event of its own kind at
      the given time; the null event and the four motion-state transitions
      carry exactly one agent, the five collision and strike kinds exactly
      two, in the order stick before ball and ball before cushion or
      pocket (first ball before second ball for a ball-ball collision). *)
Theorem constructors_shape
      (b b2 : Ball) (c : Cue) (lc : LinearCushionSegment)
      (cc : CircularCushionSegment) (p : Pocket)
      (t : float) (si : bool) :
    has_shape (null_event t si) NONE t [NullObject] /\
    has_shape (ball_ball_collision b b2 t si) BALL_BALL t [OfBall b; OfBall b2] /\
    has_shape (ball_linear_cushion_collision b lc t si)
              BALL_LINEAR_CUSHION t [OfBall b; OfLinearCushion lc] /\
    has_shape (ball_circular_cushion_collision b cc t si)
              BALL_CIRCULAR_CUSHION t [OfBall b; OfCircularCushion cc] /\
    has_shape (ball_pocket_collision b p t si)
              BALL_POCKET t [OfBall b; OfPocket p] /\
    has_shape (stick_ball_collision c b t si) STICK_BALL t [OfCue c; OfBall b] /\
    has_shape (spinning_stationary_transition b t si)
              SPINNING_STATIONARY t [OfBall b] /\
    has_shape (rolling_stationary_transition b t si)
              ROLLING_STATIONARY t [OfBall b] /\
    has_shape (rolling_spinning_transition b t si)
              ROLLING_SPINNING t [OfBall b] /\
    has_shape (sliding_rolling_transition b t si)
              SLIDING_ROLLING t [OfBall b].
  Proof.
    unfold has_shape, participants; repeat split.
  Qed.

End Constructors.

Arguments NullObject {Ball Cue LinearCushionSegment CircularCushionSegment Pocket}.
Arguments OfBall {Ball Cue LinearCushionSegment CircularCushionSegment Pocket} b.
Arguments OfCue {Ball Cue LinearCushionSegment CircularCushionSegment Pocket} c.
Arguments OfLinearCushion {Ball Cue LinearCushionSegment CircularCushionSegment Pocket} c.
Arguments OfCircularCushion {Ball Cue LinearCushionSegment CircularCushionSegment Pocket} c.
Arguments OfPocket {Ball Cue LinearCushionSegment CircularCushionSegment Pocket} p.
Arguments agent_obj {Ball Cue LinearCushionSegment CircularCushionSegment Pocket} a.
Arguments agent_initial {Ball Cue LinearCushionSegment CircularCushionSegment Pocket} a.
Arguments event_type {Ball Cue LinearCushionSegment CircularCushionSegment Pocket} e.
Arguments agents {Ball Cue LinearCushionSegment CircularCushionSegment Pocket} e.
Arguments time {Ball Cue LinearCushionSegment CircularCushionSegment Pocket} e.
Arguments participants {Ball Cue LinearCushionSegment CircularCushionSegment Pocket} e.

End Events.

(* ------------------------------------------------------------------ *)
(** ** pooltool/evolution.py *)

Module Evolution.
Import PyFloat PyFloatFacts Py.

(** *** The algorithm registry and [EvolveShot.__new__] *)

(** The classes a registry entry can name. *)
Inductive Algorithm : Set := EvolveShotEventBased.

(** [avail_algorithms], in insertion order. *)
Definition avail_algorithms : list (string * Algorithm) :=
  [("event-based", EvolveShotEventBased)].

(** [EvolveShot.__new__(cls, ..., algorithm)]: the class whose instance is
    created, or the [ValueError]. *)
Definition EvolveShot_new (algorithm : string) : Result Algorithm :=
  if negb (contains avail_algorithms algorithm) then
    Raise (ValueError
      ("You are expecting to evolve the system with algorithm '" ++ algorithm
       ++ "', which is not one of the possible db_types. Choose from: "
       ++ str_of_str_list (keys avail_algorithms))%string)
  else
    match get avail_algorithms algorithm with
    | Some cls => Ok cls
    | None => Raise (KeyError algorithm)
    end.

(** [needle in haystack] on strs. *)
Fixpoint is_prefix (p s : string) : bool :=
  match p, s with
  | EmptyString, _ => true
  | String a p', String b s' => Ascii.eqb a b && is_prefix p' s'
  | String _ _, EmptyString => false
  end.

Fixpoint is_substring (needle haystack : string) : bool :=
  is_prefix needle haystack ||
  match haystack with
  | EmptyString => false
  | String _ rest => is_substring needle rest
  end.

Lemma is_prefix_refl_app (p s : string) : is_prefix p (p ++ s)%string = true.
Proof.
  induction p as [| a p IH]; simpl; auto.
  rewrite Ascii.eqb_refl. exact IH.
Qed.

Lemma is_substring_app_r (needle a s : string) :
  is_substring needle s = true -> is_substring needle (a ++ s)%string = true.
Proof.
  intros H. induction a as [| c a IH]; simpl; auto.
  rewrite IH. apply orb_true_r.
Qed.

(** The text of the [ValueError] for a name that is not registered. *)
Definition unknown_algorithm_message (algorithm : string) : string :=
  ("You are expecting to evolve the system with algorithm '" ++ algorithm
   ++ "', which is not one of the possible db_types. Choose from: "
   ++ "['event-based']")%string.

(** [EvolveShot.__new__] alone.  The registry holds the single name
    "event-based"; under that name [__new__] selects
    [EvolveShotEventBased]; under any other name it raises a [ValueError]
    whose message ends with the list of registered names and so contains
    each of them. *)
Theorem EvolveShot_new_spec (algorithm : string) :
  keys avail_algorithms = ["event-based"] /\
  EvolveShot_new "event-based" = Ok EvolveShotEventBased /\
  (forall cls, get avail_algorithms algorithm = Some cls ->
               EvolveShot_new algorithm = Ok cls) /\
  (algorithm <> "event-based" ->
   EvolveShot_new algorithm =
     Raise (ValueError (unknown_algorithm_message algorithm)) /\
   forall k, In k (keys avail_algorithms) ->
             is_substring k (unknown_algorithm_message algorithm) = true).
Proof.
  split; [reflexivity |]. split; [reflexivity |]. split.
  - unfold EvolveShot_new, contains. simpl.
    destruct (String.eqb algorithm "event-based"); simpl; intros cls H;
      [inversion H; reflexivity | discriminate H].
  - intros Hne. apply String.eqb_neq in Hne. split.
    + unfold EvolveShot_new, contains. simpl. rewrite Hne. reflexivity.
    + intros k [<- | []]. unfold unknown_algorithm_message.
      apply is_substring_app_r, is_substring_app_r. reflexivity.
Qed.

(** *** Constructing an [EvolveShot] *)

(** The keyword parameters of [EvolveShot.__init__]; it has no catch-all
    keyword parameter. *)
Definition init_keywords : list string :=
  ["cue"; "table"; "balls"; "run"; "progress"].

(** [EvolveShot.__init__], to which [EvolveShotEventBased.__init__]
    forwards all its arguments, called with the keyword [algorithm] or
    without it. *)
Definition EvolveShot_init (cls : Algorithm) (algorithm : option string)
    : Result Algorithm :=
  match algorithm with
  | Some _ =>
      if existsb (String.eqb "algorithm") init_keywords then Ok cls
      else Raise (TypeError
             "__init__() got an unexpected keyword argument 'algorithm'")
  | None => Ok cls
  end.

(** [EvolveShot(..., algorithm=...)], the class call: [__new__] receives the
    arguments, and the instance it returns, which is an [EvolveShot], is
    then initialised by [__init__] with the same arguments.  [algorithm] is
    [None] when the keyword is left out and [__new__] takes its default. *)
Definition EvolveShot_call (algorithm : option string) : Result Algorithm :=
  (cls <- EvolveShot_new
            (match algorithm with
             | Some a => a
             | None => "event-based"
             end) ;;
   EvolveShot_init cls algorithm)%py.

(** C6.  The class call at the registered name: [__new__] selects
    [EvolveShotEventBased] for "event-based", and the construction succeeds
    when the name is left to its default; but with the registered name
    passed as the keyword [algorithm], [__init__], which has no such
    parameter, raises a [TypeError], so the construction fails.  With an
    unregistered name the [ValueError] of [__new__] listing the registered
    names is raised first. *)
Theorem EvolveShot_call_registered_name :
  EvolveShot_new "event-based" = Ok EvolveShotEventBased /\
  EvolveShot_call None = Ok EvolveShotEventBased /\
  (exists msg, EvolveShot_call (Some "event-based") = Raise (TypeError msg)) /\
  (forall a, a <> "event-based" ->
     EvolveShot_call (Some a) = Raise (ValueError (unknown_algorithm_message a)) /\
     is_substring "event-based" (unknown_algorithm_message a) = true).
Proof.
  split; [reflexivity |]. split; [reflexivity |].
  split; [eexists; reflexivity |].
  intros a Hne. apply String.eqb_neq in Hne. split.
  - unfold EvolveShot_call, EvolveShot_new, contains. simpl. rewrite Hne.
    reflexivity.
  - unfold unknown_algorithm_message.
    apply is_substring_app_r, is_substring_app_r. reflexivity.
Qed.

(** *** Objects and events of the engine *)

(** A ball's rigid-body array: rows of floats. *)
Definition Rvw : Type := list (list float).

(** Modelled from the spec: [DummyBall()] and [NonObject()] of
    pooltool.objects, which is not among the sources: the placeholders an
    event wraps when no ball or rail is involved.  A live ball or rail is
    referred to by its [id]. *)
Inductive BallRef : Type := DummyBall | BallObj (id : string).
Inductive RailRef : Type := NonObject | RailObj (id : string).

Definition Event : Type := Events.Event BallRef string RailRef string string.

(** Modelled from the spec: the event classes [NonEvent],
    [BallBallCollision] and [BallCushionCollision] of pooltool.events that
    evolution.py instantiates are not among the sources; they are taken to
    build the NONE, BALL_BALL and cushion-collision records of
    pooltool/events/_events.py around the given agents and time. *)
Definition NonEvent (t : float) : Event :=
  Events.null_event _ _ _ _ _ t false.
Definition BallBallCollision (ball1 ball2 : BallRef) (t : float) : Event :=
  Events.ball_ball_collision _ _ _ _ _ ball1 ball2 t false.
Definition BallCushionCollision (ball : BallRef) (rail : RailRef) (t : float)
    : Event :=
  Events.ball_linear_cushion_collision _ _ _ _ _ ball rail t false.

(** The attributes of a ball that evolution.py reads. *)
Record Ball : Type := mkBall {
  id : string;
  rvw : Rvw;
  s : Z;
  R : float;
  m : float;
  u_s : float;
  u_sp : float;
  u_r : float;
  g : float;
  next_transition_event : Event
}.

Record Rail : Type := mkRail {
  rail_id : string;
  lx : float;
  ly : float;
  l0 : float
}.

(** The attributes of the system that the selection and the progress
    report read: [self.balls], [self.table.rails], [self.t],
    [self.num_events]. *)
Record System : Type := mkSystem {
  balls : list (string * Ball);
  rails : list (string * Rail);
  t : float;
  num_events : nat
}.

(** *** The status sink *)

(** Calls received by [self.run] and [self.progress]. *)
Inductive SinkCall : Type :=
| RunWarning (text header lc : string)
| RunInfo (label value : string)
| ProgressNew (label : string) (progress_total_items : Z)
| ProgressUpdate (msg : string)
| ProgressIncrement (increment_to : Z)
| ProgressEnd.

(** A computation that reports to the sink and may raise: the calls made
    so far, then the outcome. *)
Definition Traced (A : Type) : Type := (list SinkCall * Result A)%type.

Definition tret {A : Type} (a : A) : Traced A := ([], Ok a).

Definition tbind {A B : Type} (c : Traced A) (k : A -> Traced B) : Traced B :=
  match c with
  | (l, Ok a) => let (l', r) := k a in (l ++ l', r)
  | (l, Raise e) => (l, Raise e)
  end.

Definition emit (c : SinkCall) : Traced unit := ([c], Ok tt).
Definition lift {A : Type} (r : Result A) : Traced A := ([], r).

Notation "x <~ c1 ;; c2" := (tbind c1 (fun x => c2))
  (at level 61, c1 at next level, right associativity).
Notation "c1 ;;; c2" := (tbind c1 (fun _ => c2))
  (at level 61, right associativity).

Section Engine.

  (** Constants of the package and routines of the physics and system
      modules, none of which is among the sources. *)
Variables stationary sliding : Z.
Variable get_ball_ball_collision_time :
    Rvw -> Rvw -> Z -> Z -> float -> float -> float -> float -> float ->
    float -> float -> float.
Variable get_ball_rail_collision_time :
    Rvw -> Z -> float -> float -> float -> float -> float -> float -> float ->
    float.
Variable get_system_energy : System -> float.
  (** [str(np.round(x, 2))] *)
Variable str_round2 : float -> string.

  (** *** [EvolveShot.simulate], lines 56-71 *)

  (** The closure [progress_update], with the [energy_start] it captured. *)
Definition progress_update (energy_start : float) (self : System)
      : Traced unit :=
    let energy := get_system_energy self in
    let num_stationary :=
      List.length (filter (fun b => Z.eqb (s b) 0) (values (balls self))) in
    let msg :=
      ("ENERGY " ++ str_round2 energy ++ "J | STATIONARY "
       ++ str_of_nat num_stationary ++ " | EVENTS "
       ++ str_of_nat (num_events self))%string in
    emit (ProgressUpdate msg) ;;;
    increment_to <~ lift (int_of_float (sub energy_start energy)) ;;
    emit (ProgressIncrement increment_to).

  (** From [energy_start = ...] to [self.progress.new(...)]: returns the
      captured [energy_start]. *)
Definition simulate_start (self : System) (name : string) : Traced float :=
    let energy_start := get_system_energy self in
    emit (RunWarning "" name "green") ;;;
    emit (RunInfo "starting energy" (str_round2 energy_start ++ "J")%string) ;;;
    total <~ lift (int_of_float energy_start) ;;
    emit (ProgressNew "Running" total) ;;;
    tret energy_start.

  (** The total announced to the progress indicator, if any. *)
Definition progress_target (calls : list SinkCall) : option Z :=
  match filter (fun c => match c with ProgressNew _ _ => true | _ => false end)
               calls with
  | ProgressNew _ total :: _ => Some total
  | _ => None
  end.

(** The positions the progress indicator was moved to. *)
Fixpoint progress_positions (calls : list SinkCall) : list Z :=
  match calls with
  | [] => []
  | ProgressIncrement z :: r => z :: progress_positions r
  | _ :: r => progress_positions r
  end.

(** *** [EvolveShotEventBased.get_min_transition_event_time] *)

Definition get_min_transition_event_time (self : System) : Event :=
    fold_left
      (fun (event : Event) (ball : Ball) =>
         if leb (Events.time (next_transition_event ball)) (Events.time event)
         then next_transition_event ball
         else event)
      (values (balls self))
      (NonEvent inf).

  (** *** [EvolveShotEventBased.get_min_ball_ball_event_time] *)

  (** The body of the inner loop, for the outer pair [(i, ball1)]; the state
      is [(dtau_E_min, involved_balls)]. *)
Definition ball_ball_inner (i : nat) (ball1 : Ball)
      (st : float * (BallRef * BallRef)) (jb : nat * Ball)
      : float * (BallRef * BallRef) :=
    let '(j, ball2) := jb in
    if Nat.leb j i then st
    else if Z.eqb (s ball1) stationary && Z.eqb (s ball2) stationary then st
    else
      let dtau_E :=
        get_ball_ball_collision_time
          (rvw ball1) (rvw ball2) (s ball1) (s ball2)
          (if Z.eqb (s ball1) sliding then u_s ball1 else u_r ball1)
          (if Z.eqb (s ball2) sliding then u_s ball2 else u_r ball2)
          (m ball1) (m ball2) (g ball1) (g ball2) (R ball1) in
      if ltb dtau_E (fst st)
      then (dtau_E, (BallObj (id ball1), BallObj (id ball2)))
      else st.

Definition ball_ball_outer (vals : list Ball)
      (st : float * (BallRef * BallRef)) (ib : nat * Ball)
      : float * (BallRef * BallRef) :=
    let '(i, ball1) := ib in
    fold_left (ball_ball_inner i ball1) (enumerate vals) st.

Definition get_min_ball_ball_event_time (self : System) : Event :=
    let vals := values (balls self) in
    let '(dtau_E_min, involved_balls) :=
      fold_left (ball_ball_outer vals) (enumerate vals)
                (inf, (DummyBall, DummyBall)) in
    let dtau_E := dtau_E_min in
    BallBallCollision (fst involved_balls) (snd involved_balls)
                      (add (t self) dtau_E).

  (** *** [EvolveShotEventBased.get_min_ball_rail_event_time] *)

Definition ball_rail_inner (ball : Ball)
      (st : float * (BallRef * RailRef)) (rail : Rail)
      : float * (BallRef * RailRef) :=
    let dtau_E :=
      get_ball_rail_collision_time
        (rvw ball) (s ball) (lx rail) (ly rail) (l0 rail)
        (if Z.eqb (s ball) sliding then u_s ball else u_r ball)
        (m ball) (g ball) (R ball) in
    if ltb dtau_E (fst st)
    then (dtau_E, (BallObj (id ball), RailObj (rail_id rail)))
    else st.

Definition ball_rail_outer (rls : list Rail)
      (st : float * (BallRef * RailRef)) (ball : Ball)
      : float * (BallRef * RailRef) :=
    if Z.eqb (s ball) stationary then st
    else fold_left (ball_rail_inner ball) rls st.

Definition get_min_ball_rail_event_time (self : System) : Event :=
    let '(dtau_E_min, involved_agents) :=
      fold_left (ball_rail_outer (values (rails self)))
                (values (balls self))
                (inf, (DummyBall, NonObject)) in
    let dtau_E := dtau_E_min in
    BallCushionCollision (fst involved_agents) (snd involved_agents)
                         (add (t self) dtau_E).

  (** *** [EvolveShotEventBased.get_next_event] *)

  (** One [if candidate.time < event.time: event = candidate]. *)
Definition take_if_earlier (candidate event : Event) : Event :=
    if ltb (Events.time candidate) (Events.time event) then candidate
    else event.

Definition get_next_event (self : System) : Event :=
    let event := NonEvent inf in
    let transition_event := get_min_transition_event_time self in
    let event := take_if_earlier transition_event event in
    let ball_ball_event := get_min_ball_ball_event_time self in
    let event := take_if_earlier ball_ball_event event in
    let ball_cushion_event := get_min_ball_rail_event_time self in
    let event := take_if_earlier ball_cushion_event event in
    event.

(** *** Progress reporting *)

(** C5, as the code has it.  [simulate] announces to the progress
    indicator the total [int(energy_start)], the start energy truncated
    toward zero, and each progress update moves the indicator to
    [int(energy_start - energy)], the float difference truncated toward
    zero, where [energy_start] is the system energy read at the start of
    [simulate]; on a difference that is not negative the truncation is the
    floor. *)
Theorem progress_reports_truncate (self now : System) (name : string) :
  let energy_start := get_system_energy self in
  (forall total, trunc_toward_zero energy_start = Some total ->
     simulate_start self name =
       ([RunWarning "" name "green";
         RunInfo "starting energy" (str_round2 energy_start ++ "J")%string;
         ProgressNew "Running" total],
        Ok energy_start) /\
     progress_target (fst (simulate_start self name)) = Some total) /\
  (forall z,
     trunc_toward_zero (sub energy_start (get_system_energy now)) = Some z ->
     snd (progress_update energy_start now) = Ok tt /\
     progress_positions (fst (progress_update energy_start now)) = [z]) /\
  (ltb (sub energy_start (get_system_energy now)) (S754_zero false) = false ->
   trunc_toward_zero (sub energy_start (get_system_energy now)) =
   floor_of_float (sub energy_start (get_system_energy now))).
Proof.
  intros energy_start. split; [| split].
  - intros total H. apply int_of_float_trunc in H.
    unfold simulate_start. fold energy_start. rewrite H. split; reflexivity.
  - intros z H. apply int_of_float_trunc in H.
    unfold progress_update. rewrite H. split; reflexivity.
  - apply trunc_floor_nonneg.
Qed.

(** *** The ball-ball source, in the words of its description *)

(** The friction coefficient passed for a ball: sliding coefficient if the
    ball is sliding, rolling coefficient otherwise. *)
Definition effective_mu (b : Ball) : float :=
  if Z.eqb (s b) sliding then u_s b else u_r b.

(** The collision time the boundary routine returns for a pair. *)
Definition pair_collision_time (p : Ball * Ball) : float :=
  get_ball_ball_collision_time
    (rvw (fst p)) (rvw (snd p)) (s (fst p)) (s (snd p))
    (effective_mu (fst p)) (effective_mu (snd p))
    (m (fst p)) (m (snd p)) (g (fst p)) (g (snd p)) (R (fst p)).

Definition both_stationary (p : Ball * Ball) : bool :=
  Z.eqb (s (fst p)) stationary && Z.eqb (s (snd p)) stationary.

(** The pairs that get a collision time, in the order they are visited. *)
Definition candidate_pairs (self : System) : list (Ball * Ball) :=
  filter (fun p => negb (both_stationary p))
         (MinFold.unordered_pairs (values (balls self))).

(** The agents wrapped for the pair kept, or the two placeholders. *)
Definition involved (c : option (Ball * Ball)) : BallRef * BallRef :=
  match c with
  | None => (DummyBall, DummyBall)
  | Some p => (BallObj (id (fst p)), BallObj (id (snd p)))
  end.

(** The loop body for a pair that passed the index test. *)
Definition pair_step (st : float * (BallRef * BallRef)) (p : Ball * Ball)
    : float * (BallRef * BallRef) :=
  ball_ball_inner 0 (fst p) st (1, snd p).

Lemma ball_ball_inner_above (i j : nat) (b1 b2 : Ball)
    (st : float * (BallRef * BallRef)) :
  i < j -> ball_ball_inner i b1 st (j, b2) = pair_step st (b1, b2).
Proof.
  intros Hij. unfold pair_step, ball_ball_inner. simpl fst; simpl snd.
  replace (Nat.leb j i) with false by (symmetry; apply Nat.leb_gt; lia).
  reflexivity.
Qed.

Lemma ball_ball_inner_skip (i : nat) (b1 : Ball) (l : list Ball) (k : nat)
    (st : float * (BallRef * BallRef)) :
  k + List.length l <= S i ->
  fold_left (ball_ball_inner i b1) (enumerate_from k l) st = st.
Proof.
  revert k st. induction l as [| x l IH]; intros k st Hk; simpl in *; auto.
  replace (Nat.leb k i) with true by (symmetry; apply Nat.leb_le; lia).
  apply IH. lia.
Qed.

Lemma ball_ball_inner_run (i : nat) (b1 : Ball) (l : list Ball) (k : nat)
    (st : float * (BallRef * BallRef)) :
  i < k ->
  fold_left (ball_ball_inner i b1) (enumerate_from k l) st =
  fold_left (fun st b2 => pair_step st (b1, b2)) l st.
Proof.
  revert k st. induction l as [| x l IH]; intros k st Hk; auto.
  cbn [enumerate_from fold_left].
  rewrite ball_ball_inner_above by exact Hk. apply IH. lia.
Qed.

(** The two nested index loops visit the unordered pairs. *)
Lemma ball_ball_loops_pairs (rest pre : list Ball)
    (st : float * (BallRef * BallRef)) :
  fold_left (ball_ball_outer (pre ++ rest))
            (enumerate_from (List.length pre) rest) st =
  fold_left pair_step (MinFold.unordered_pairs rest) st.
Proof.
  revert pre st. induction rest as [| b1 rest IH]; intros pre st; auto.
  cbn [enumerate_from fold_left MinFold.unordered_pairs].
  rewrite fold_left_app, MinFold.fold_left_map.
  replace (ball_ball_outer (pre ++ b1 :: rest) st (List.length pre, b1))
    with (fold_left (fun st b2 => pair_step st (b1, b2)) rest st).
  - specialize (IH (pre ++ [b1])).
    rewrite <- app_assoc, length_app in IH. simpl in IH.
    rewrite Nat.add_1_r in IH. apply IH.
  - unfold ball_ball_outer, enumerate.
    rewrite MinFold.enumerate_from_app, fold_left_app.
    rewrite (ball_ball_inner_skip (List.length pre) b1 pre 0) by (simpl; lia).
    cbn [enumerate_from fold_left]. unfold ball_ball_inner at 2.
    rewrite Nat.leb_refl.
    symmetry. apply ball_ball_inner_run. simpl. lia.
Qed.

Lemma pair_step_strict (st : float * option (Ball * Ball)) (p : Ball * Ball) :
  pair_step (fst st, involved (snd st)) p =
  (fun st' => (fst st', involved (snd st')))
    (if negb (both_stationary p)
     then MinFold.strict_step pair_collision_time st p
     else st).
Proof.
  unfold pair_step, ball_ball_inner, both_stationary, MinFold.strict_step,
    pair_collision_time, effective_mu.
  cbn [Nat.leb fst snd].
  destruct (Z.eqb (s (fst p)) stationary && Z.eqb (s (snd p)) stationary);
    cbn [negb]; auto.
  match goal with |- context [ltb ?x ?y] => destruct (ltb x y) end; reflexivity.
Qed.

(** The loops compute the strict running minimum over the candidate pairs. *)
Lemma ball_ball_loops_strict_min (self : System) :
  fold_left (ball_ball_outer (values (balls self)))
            (enumerate (values (balls self))) (inf, (DummyBall, DummyBall)) =
  (fst (MinFold.strict_min pair_collision_time (candidate_pairs self)),
   involved (snd (MinFold.strict_min pair_collision_time (candidate_pairs self)))).
Proof.
  unfold enumerate.
  rewrite (ball_ball_loops_pairs (values (balls self)) []).
  unfold MinFold.strict_min, candidate_pairs.
  rewrite <- MinFold.fold_left_filter.
  change (inf, (DummyBall, DummyBall))
    with ((fun st' : float * option (Ball * Ball) =>
             (fst st', involved (snd st'))) (inf, None)).
  apply MinFold.fold_left_simulation with
    (f := fun st p => if negb (both_stationary p)
                      then MinFold.strict_step pair_collision_time st p
                      else st).
  intros st p. apply pair_step_strict.
Qed.

(** C2.  The ball-ball source visits every unordered pair of distinct balls
    (by position in the ball collection), leaves out exactly the pairs whose
    two balls are stationary, takes for each remaining pair the boundary
    routine's time with each ball's sliding coefficient if it is sliding and
    its rolling coefficient otherwise, keeps the strict minimum (no visited
    pair is strictly below the time kept, every pair visited before the one
    kept is strictly above it or unordered), and returns the BALL_BALL event
    of the pair kept (the two placeholders when none was) at
    [t + minimum]. *)
Theorem get_min_ball_ball_event_time_spec (self : System) :
  (forall b1 b2,
     In (b1, b2) (candidate_pairs self) <->
     both_stationary (b1, b2) = false /\
     exists i j, i < j /\
       nth_error (values (balls self)) i = Some b1 /\
       nth_error (values (balls self)) j = Some b2) /\
  exists (d : float) (kept : option (Ball * Ball)),
    get_min_ball_ball_event_time self =
      BallBallCollision (fst (involved kept)) (snd (involved kept))
                        (add (t self) d) /\
    Events.event_type (get_min_ball_ball_event_time self) = Events.BALL_BALL /\
    Events.time (get_min_ball_ball_event_time self) = add (t self) d /\
    (forall q, In q (candidate_pairs self) ->
               ltb (pair_collision_time q) d = false) /\
    match kept with
    | None => d = inf
    | Some p =>
        exists pre post,
          candidate_pairs self = pre ++ p :: post /\
          d = pair_collision_time p /\
          ltb d inf = true /\
          forall q, In q pre -> leb (pair_collision_time q) d = false
    end.
Proof.
  split.
  - intros b1 b2. unfold candidate_pairs.
    rewrite filter_In, MinFold.unordered_pairs_positions, negb_true_iff.
    tauto.
  - pose proof (MinFold.strict_min_spec pair_collision_time
                  (candidate_pairs self)) as [Hall Hsel].
    exists (fst (MinFold.strict_min pair_collision_time (candidate_pairs self))),
           (snd (MinFold.strict_min pair_collision_time (candidate_pairs self))).
    unfold get_min_ball_ball_event_time.
    rewrite ball_ball_loops_strict_min.
    repeat split; auto.
    destruct (snd (MinFold.strict_min pair_collision_time (candidate_pairs self)))
      as [p|]; auto.
    destruct Hsel as (pre & post & Hc & Hd & Hinf & Hpre).
    exists pre, post. rewrite Hd. repeat split; auto.
Qed.

(** *** The transition source and the selection across sources *)

Definition transition_time (b : Ball) : float :=
  Events.time (next_transition_event b).

(** What the transition source returns for the balls [vals]: the sentinel
    when no ball's time is below-or-equal +infinity; otherwise the event of
    a ball that no ball is strictly below and that every later ball is
    strictly above (or unordered with). *)
Definition transition_choice (vals : list Ball) (e : Event) : Prop :=
  (e = NonEvent inf /\
   forall q, In q vals -> leb (transition_time q) inf = false) \/
  (exists pre b post,
     vals = pre ++ b :: post /\ e = next_transition_event b /\
     leb (transition_time b) inf = true /\
     (forall q, In q pre -> ltb (transition_time q) (transition_time b) = false) /\
     (forall q, In q post -> leb (transition_time q) (transition_time b) = false)).

Lemma get_min_transition_event_time_choice (self : System) :
  transition_choice (values (balls self)) (get_min_transition_event_time self).
Proof.
  unfold get_min_transition_event_time.
  induction (values (balls self)) as [| x l IH] using rev_ind.
  - left. split; [reflexivity | intros q []].
  - rewrite fold_left_app. cbn [fold_left].
    match goal with |- context [leb ?a ?b] => destruct (leb a b) eqn:Hle end.
    + right. exists l, x, []. repeat split; [| | intros q []].
      * destruct IH as [[He _] | (pre & b & post & _ & He & Hb & _)];
          rewrite He in Hle; auto.
        unfold transition_time in *. revert Hle Hb. clear.
        generalize (Events.time (next_transition_event x)),
                   (Events.time (next_transition_event b)).
        unfold inf. float_order.
      * intros q Hq.
        destruct IH as [[He Hall] | (pre & b & post & Hv & He & Hb & Hpre & Hpost)].
        -- apply not_leb_inf_not_ltb. auto.
        -- rewrite He in Hle.
           apply not_ltb_leb_not_ltb with (d := transition_time b); auto.
           subst l. apply in_app_or in Hq. destruct Hq as [Hq | [<- | Hq]].
           ++ auto.
           ++ apply ltb_irrefl.
           ++ apply leb_false_ltb. auto.
    + destruct IH as [[He Hall] | (pre & b & post & Hv & He & Hb & Hpre & Hpost)].
      * left. split; auto. intros q Hq.
        apply in_app_or in Hq. destruct Hq as [Hq | [<- | []]]; auto.
        rewrite He in Hle. exact Hle.
      * right. exists pre, b, (post ++ [x]). rewrite Hv, <- app_assoc.
        repeat split; auto; [rewrite <- Hv; exact He |].
        intros q Hq. apply in_app_or in Hq. destruct Hq as [Hq | [<- | []]]; auto.
        rewrite He in Hle. exact Hle.
Qed.

(** [r] is the earliest of the three candidates, the earlier source winning
    a tie, or the sentinel when no candidate is below +infinity. *)
Definition earliest_of (r tr bb rl : Event) : Prop :=
  (r = tr /\ ltb (Events.time tr) inf = true /\
   ltb (Events.time bb) (Events.time tr) = false /\
   ltb (Events.time rl) (Events.time tr) = false) \/
  (r = bb /\ ltb (Events.time bb) inf = true /\
   leb (Events.time tr) (Events.time bb) = false /\
   ltb (Events.time rl) (Events.time bb) = false) \/
  (r = rl /\ ltb (Events.time rl) inf = true /\
   leb (Events.time tr) (Events.time rl) = false /\
   leb (Events.time bb) (Events.time rl) = false) \/
  (r = NonEvent inf /\ ltb (Events.time tr) inf = false /\
   ltb (Events.time bb) inf = false /\ ltb (Events.time rl) inf = false).

Lemma take_if_earlier_chain (tr bb rl : Event) :
  earliest_of
    (take_if_earlier rl (take_if_earlier bb (take_if_earlier tr (NonEvent inf))))
    tr bb rl.
Proof.
  unfold earliest_of, take_if_earlier.
  change (Events.time (NonEvent inf)) with inf.
  destruct (ltb (Events.time tr) inf) eqn:Htr.
  - destruct (ltb (Events.time bb) (Events.time tr)) eqn:Hbb.
    + destruct (ltb (Events.time rl) (Events.time bb)) eqn:Hrl.
      * right; right; left. repeat split; eauto with float_order.
      * right; left. repeat split; eauto with float_order.
    + destruct (ltb (Events.time rl) (Events.time tr)) eqn:Hrl.
      * right; right; left. repeat split; eauto with float_order.
      * left. repeat split; auto.
  - change (Events.time (NonEvent inf)) with inf.
    destruct (ltb (Events.time bb) inf) eqn:Hbb.
    + destruct (ltb (Events.time rl) (Events.time bb)) eqn:Hrl.
      * right; right; left. repeat split; eauto with float_order.
      * right; left. repeat split; eauto with float_order.
    + change (Events.time (NonEvent inf)) with inf.
      destruct (ltb (Events.time rl) inf) eqn:Hrl.
      * right; right; left. repeat split; eauto with float_order.
      * right; right; right. repeat split; auto.
Qed.

Lemma earliest_of_sentinel (r tr bb rl : Event) :
  earliest_of r tr bb rl ->
  (r = NonEvent inf <->
   ltb (Events.time tr) inf = false /\ ltb (Events.time bb) inf = false /\
   ltb (Events.time rl) inf = false) /\
  (Events.time r = inf <-> r = NonEvent inf).
Proof.
  intros H.
  assert (Hsent : r = NonEvent inf ->
                  ltb (Events.time tr) inf = false /\
                  ltb (Events.time bb) inf = false /\
                  ltb (Events.time rl) inf = false).
  { intros Hr.
    destruct H as [(E & Hlt & _) | [(E & Hlt & _) | [(E & Hlt & _) | (_ & H)]]];
      auto; rewrite <- E, Hr in Hlt; discriminate Hlt. }
  assert (Htime : Events.time r = inf -> r = NonEvent inf).
  { intros Hr.
    destruct H as [(E & Hlt & _) | [(E & Hlt & _) | [(E & Hlt & _) | (E & _)]]];
      auto; rewrite <- E, Hr in Hlt; discriminate Hlt. }
  split; [split; [exact Hsent |] | split; [exact Htime |]].
  - intros (Htr & Hbb & Hrl).
    destruct H as [(_ & Hlt & _) | [(_ & Hlt & _) | [(_ & Hlt & _) | (E & _)]]];
      auto; congruence.
  - intros ->. reflexivity.
Qed.

(** C1.  The transition source keeps its running minimum with [<=], so a
    later ball replaces an earlier one at an equal time; [get_next_event]
    returns the candidate that no other candidate is strictly below, the
    earlier source (transition, then ball-ball, then ball-rail) winning an
    exact tie; it returns the NONE sentinel at +infinity exactly when no
    candidate is below +infinity, which for candidates whose times are
    numbers means: exactly when all three times are +infinity. *)
Theorem get_next_event_spec (self : System) :
  let tr := get_min_transition_event_time self in
  let bb := get_min_ball_ball_event_time self in
  let rl := get_min_ball_rail_event_time self in
  let r := get_next_event self in
  transition_choice (values (balls self)) tr /\
  earliest_of r tr bb rl /\
  (r = NonEvent inf <->
   ltb (Events.time tr) inf = false /\ ltb (Events.time bb) inf = false /\
   ltb (Events.time rl) inf = false) /\
  (Events.time r = inf <-> r = NonEvent inf) /\
  (Events.event_type (NonEvent inf) = Events.NONE /\
   Events.time (NonEvent inf) = inf) /\
  (is_nan (Events.time tr) = false -> is_nan (Events.time bb) = false ->
   is_nan (Events.time rl) = false ->
   (r = NonEvent inf <->
    Events.time tr = inf /\ Events.time bb = inf /\ Events.time rl = inf)).
Proof.
  intros tr bb rl r.
  assert (He : earliest_of r tr bb rl) by apply take_if_earlier_chain.
  destruct (earliest_of_sentinel _ _ _ _ He) as [Hs Ht].
  split; [apply get_min_transition_event_time_choice |].
  split; [exact He |].
  split; [exact Hs |].
  split; [exact Ht |].
  split; [split; reflexivity |].
  intros Ntr Nbb Nrl. rewrite Hs. split.
  - intros (Htr & Hbb & Hrl). repeat split; apply not_nan_not_ltb_inf; auto.
  - intros (-> & -> & ->). repeat split.
Qed.

(** *** The ball-rail source, in the words of its description *)

(** The collision time the boundary routine returns for a ball and a rail. *)
Definition rail_collision_time (p : Ball * Rail) : float :=
  get_ball_rail_collision_time
    (rvw (fst p)) (s (fst p)) (lx (snd p)) (ly (snd p)) (l0 (snd p))
    (effective_mu (fst p)) (m (fst p)) (g (fst p)) (R (fst p)).

(** The (ball, rail) pairs that get a collision time, in the order they are
    visited: ball by ball, stationary balls left out, rail by rail. *)
Definition rail_candidates (self : System) : list (Ball * Rail) :=
  flat_map
    (fun b => if Z.eqb (s b) stationary then []
              else map (pair b) (values (rails self)))
    (values (balls self)).

(** The agents wrapped for the pair kept, or the two placeholders. *)
Definition involved_rail (c : option (Ball * Rail)) : BallRef * RailRef :=
  match c with
  | None => (DummyBall, NonObject)
  | Some p => (BallObj (id (fst p)), RailObj (rail_id (snd p)))
  end.

Lemma ball_rail_inner_strict (st : float * option (Ball * Rail))
    (b : Ball) (r : Rail) :
  ball_rail_inner b (fst st, involved_rail (snd st)) r =
  (fun st' => (fst st', involved_rail (snd st')))
    (MinFold.strict_step rail_collision_time st (b, r)).
Proof.
  unfold ball_rail_inner, MinFold.strict_step, rail_collision_time,
    effective_mu.
  cbn [fst snd].
  match goal with |- context [ltb ?x ?y] => destruct (ltb x y) end; reflexivity.
Qed.

(** The two loops compute the strict running minimum over the candidates. *)
Lemma ball_rail_loops_strict_min (self : System) :
  fold_left (ball_rail_outer (values (rails self))) (values (balls self))
            (inf, (DummyBall, NonObject)) =
  (fst (MinFold.strict_min rail_collision_time (rail_candidates self)),
   involved_rail
     (snd (MinFold.strict_min rail_collision_time (rail_candidates self)))).
Proof.
  unfold MinFold.strict_min, rail_candidates.
  rewrite MinFold.fold_left_flat_map.
  pose (enc := fun st' : float * option (Ball * Rail) =>
                 (fst st', involved_rail (snd st'))).
  match goal with
  | |- _ = (fst ?X, involved_rail (snd ?X)) => change (fst X, involved_rail (snd X)) with (enc X)
  end.
  change (inf, (DummyBall, NonObject)) with (enc (inf, None)).
  apply MinFold.fold_left_simulation. intros st b. unfold ball_rail_outer.
  destruct (Z.eqb (s b) stationary); [reflexivity |].
  rewrite MinFold.fold_left_map.
  apply MinFold.fold_left_simulation. intros st' r.
  apply ball_rail_inner_strict.
Qed.

(** X1.  The ball-rail source gives a collision time to exactly the pairs
    of a non-stationary ball and a rail of the table, keeps the strict
    minimum (no pair is strictly below the time kept, every pair visited
    before the one kept is strictly above it or unordered), and returns the
    cushion event of the pair kept (the two placeholders when none was) at
    [t + minimum]. *)
Theorem get_min_ball_rail_event_time_spec (self : System) :
  (forall b r,
     In (b, r) (rail_candidates self) <->
     In b (values (balls self)) /\ s b <> stationary /\
     In r (values (rails self))) /\
  exists (d : float) (kept : option (Ball * Rail)),
    get_min_ball_rail_event_time self =
      BallCushionCollision (fst (involved_rail kept)) (snd (involved_rail kept))
                           (add (t self) d) /\
    (forall q, In q (rail_candidates self) ->
               ltb (rail_collision_time q) d = false) /\
    match kept with
    | None => d = inf
    | Some p =>
        exists pre post,
          rail_candidates self = pre ++ p :: post /\
          d = rail_collision_time p /\
          ltb d inf = true /\
          forall q, In q pre -> leb (rail_collision_time q) d = false
    end.
Proof.
  split.
  - intros b r. unfold rail_candidates. rewrite in_flat_map. split.
    + intros (b' & Hb & Hin).
      destruct (Z.eqb_spec (s b') stationary) as [E | E]; [destruct Hin |].
      apply in_map_iff in Hin. destruct Hin as (r' & Heq & Hr).
      inversion Heq; subst. auto.
    + intros (Hb & Hs & Hr). exists b. split; auto.
      destruct (Z.eqb_spec (s b) stationary) as [E | E]; [contradiction |].
      apply in_map. exact Hr.
  - pose proof (MinFold.strict_min_spec rail_collision_time
                  (rail_candidates self)) as [Hall Hsel].
    exists (fst (MinFold.strict_min rail_collision_time (rail_candidates self))),
           (snd (MinFold.strict_min rail_collision_time (rail_candidates self))).
    unfold get_min_ball_rail_event_time.
    rewrite ball_rail_loops_strict_min.
    repeat split; auto.
    destruct (snd (MinFold.strict_min rail_collision_time (rail_candidates self)))
      as [p|]; auto.
    destruct Hsel as (pre & post & Hc & Hd & Hinf & Hpre).
    exists pre, post. rewrite Hd. repeat split; auto.
Qed.

(** *** A system at rest *)

(** Every ball is stationary and has no transition ahead. *)
Definition at_rest (self : System) : Prop :=
  forall b, In b (values (balls self)) ->
    s b = stationary /\ ltb (transition_time b) inf = false.

Lemma filter_all_false {A : Type} (keep : A -> bool) (l : list A) :
  (forall x, In x l -> keep x = false) -> filter keep l = [].
Proof.
  induction l as [| x l IH]; intros H; simpl; auto.
  rewrite (H x) by (left; reflexivity). apply IH. intros; apply H; right; auto.
Qed.

Lemma at_rest_no_pairs (self : System) :
  at_rest self -> candidate_pairs self = [].
Proof.
  intros H. unfold candidate_pairs. apply filter_all_false.
  intros [b1 b2] Hin. apply MinFold.unordered_pairs_positions in Hin.
  destruct Hin as (i & j & _ & Hi & Hj).
  apply nth_error_In in Hi, Hj. unfold both_stationary. cbn [fst snd].
  rewrite (proj1 (H b1 Hi)), (proj1 (H b2 Hj)), Z.eqb_refl. reflexivity.
Qed.

Lemma at_rest_no_rail_pairs (self : System) :
  at_rest self -> rail_candidates self = [].
Proof.
  unfold rail_candidates, at_rest. generalize (values (balls self)).
  induction l as [| b l IH]; intros H; simpl; auto.
  rewrite (proj1 (H b (or_introl eq_refl))), Z.eqb_refl. simpl.
  apply IH. intros b' Hb'. apply H. right. exact Hb'.
Qed.

Lemma get_next_event_at_rest_sentinel (self : System) :
  at_rest self ->
  get_next_event self = NonEvent inf /\
  candidate_pairs self = [] /\ rail_candidates self = [].
Proof.
  intros H.
  pose proof (at_rest_no_pairs self H) as Hp.
  pose proof (at_rest_no_rail_pairs self H) as Hq.
  split; [| split; assumption].
  pose proof (take_if_earlier_chain
                (get_min_transition_event_time self)
                (get_min_ball_ball_event_time self)
                (get_min_ball_rail_event_time self)) as He.
  apply earliest_of_sentinel in He. destruct He as [Hs _].
  apply Hs. repeat split.
  - destruct (get_min_transition_event_time_choice self)
      as [[-> _] | (pre & b & post & Hv & -> & _)]; [reflexivity |].
    apply H. rewrite Hv. apply in_or_app. right. left. reflexivity.
  - unfold get_min_ball_ball_event_time.
    rewrite ball_ball_loops_strict_min, Hp. apply add_inf_not_below_inf.
  - unfold get_min_ball_rail_event_time.
    rewrite ball_rail_loops_strict_min, Hq. apply add_inf_not_below_inf.
Qed.

(** X2.  When every ball is stationary and none has a transition ahead
    (its next transition time is not below +infinity), whatever the clock,
    the rails and the number of balls, the two collision sources return
    their placeholder events at [t + inf] and [get_next_event] returns the
    NONE sentinel at +infinity, the value on which the event loop stops. *)
Theorem get_next_event_at_rest (self : System) :
  at_rest self ->
  get_min_ball_ball_event_time self =
    BallBallCollision DummyBall DummyBall (add (t self) inf) /\
  get_min_ball_rail_event_time self =
    BallCushionCollision DummyBall NonObject (add (t self) inf) /\
  get_next_event self = NonEvent inf.
Proof.
  intros H.
  assert (Hbb : get_min_ball_ball_event_time self =
                BallBallCollision DummyBall DummyBall (add (t self) inf)).
  { unfold get_min_ball_ball_event_time.
    rewrite ball_ball_loops_strict_min, (at_rest_no_pairs self H).
    reflexivity. }
  assert (Hrl : get_min_ball_rail_event_time self =
                BallCushionCollision DummyBall NonObject (add (t self) inf)).
  { unfold get_min_ball_rail_event_time.
    rewrite ball_rail_loops_strict_min.
    unfold at_rest in H. rewrite (at_rest_no_rail_pairs self H). reflexivity. }
  split; [exact Hbb |]. split; [exact Hrl |].
  pose proof (take_if_earlier_chain
                (get_min_transition_event_time self)
                (get_min_ball_ball_event_time self)
                (get_min_ball_rail_event_time self)) as He.
  apply earliest_of_sentinel in He. destruct He as [Hs _].
  apply Hs. rewrite Hbb, Hrl. repeat split.
  - destruct (get_min_transition_event_time_choice self)
      as [[-> _] | (pre & b & post & Hv & -> & _)]; [reflexivity |].
    apply H. rewrite Hv. apply in_or_app. right. left. reflexivity.
  - apply add_inf_not_below_inf.
  - apply add_inf_not_below_inf.
Qed.

(** X3.  The time of the event [get_next_event] returns is never NaN and
    never above +infinity, even when candidate times are NaN: it is
    below-or-equal +infinity in the float order. *)
Theorem get_next_event_time_ordered (self : System) :
  leb (Events.time (get_next_event self)) inf = true /\
  is_nan (Events.time (get_next_event self)) = false.
Proof.
  assert (H : leb (Events.time (get_next_event self)) inf = true).
  { pose proof (take_if_earlier_chain
                  (get_min_transition_event_time self)
                  (get_min_ball_ball_event_time self)
                  (get_min_ball_rail_event_time self)) as He.
    fold (get_next_event self) in He. unfold get_next_event in *.
    cbv zeta in *.
    destruct He as [(E & Hlt & _) | [(E & Hlt & _) | [(E & Hlt & _) | (E & _)]]];
      rewrite E; try (apply ltb_leb; exact Hlt). reflexivity. }
  split; [exact H | apply leb_inf_not_nan; exact H].
Qed.

(** *** Failing progress reports *)

Definition is_finite (x : float) : bool :=
  match x with
  | S754_zero _ | S754_finite _ _ _ => true
  | _ => false
  end.

(** X4.  A progress update completes exactly when the float difference
    [energy_start - energy] is finite; it then sends one status message
    followed by one position.  When the difference is infinite or NaN it
    raises after the status message was sent and without moving the
    indicator.  Likewise [simulate] announces a total exactly when the start
    energy is finite, and raises after its two status lines otherwise. *)
Theorem progress_reports_completion (self now : System) (name : string) :
  let energy_start := get_system_energy self in
  let diff := sub energy_start (get_system_energy now) in
  (completed (snd (progress_update energy_start now)) = is_finite diff) /\
  (is_finite diff = true ->
   exists msg z,
     fst (progress_update energy_start now) =
       [ProgressUpdate msg; ProgressIncrement z]) /\
  (is_finite diff = false ->
   exists msg,
     fst (progress_update energy_start now) = [ProgressUpdate msg]) /\
  (completed (snd (simulate_start self name)) = is_finite energy_start) /\
  (is_finite energy_start = false ->
   progress_target (fst (simulate_start self name)) = None /\
   List.length (fst (simulate_start self name)) = 2%nat).
Proof.
  intros energy_start diff. unfold progress_update, simulate_start.
  fold energy_start. fold diff.
  repeat split.
  - destruct diff as [sg | sg | | sg m e]; reflexivity.
  - intros H. destruct diff as [sg | sg | | sg m e]; try discriminate H;
      eexists; eexists; reflexivity.
  - intros H. destruct diff as [sg | sg | | sg m e]; try discriminate H;
      eexists; reflexivity.
  - destruct energy_start as [sg | sg | | sg m e]; reflexivity.
  - destruct energy_start as [sg | sg | | sg m e]; try discriminate H;
      reflexivity.
  - destruct energy_start as [sg | sg | | sg m e]; try discriminate H;
      reflexivity.
Qed.

(** *** [EvolveShotEventBased.evolve] and [evolution_algorithm] *)

(** Routines of the physics, object and history modules, none of which is
    among the sources: [physics.evolve_ball_motion], [ball.set],
    [event.resolve] (which acts on the balls the event refers to),
    [update_history] and [end_history]. *)
Variable evolve_ball_motion :
  Z -> Rvw -> float -> float -> float -> float -> float -> float -> float ->
  Rvw * Z.
Variable ball_set : Ball -> Rvw -> Z -> float -> Ball.
Variable resolve : Event -> System -> System.
Variable update_history : Event -> System -> System.
Variable end_history : System -> System.

(** [evolve(dt)] *)
Definition evolve (self : System) (dt : float) : System :=
  {| balls :=
       map (fun kb : string * Ball =>
              let ball := snd kb in
              let '(rvw', s') :=
                evolve_ball_motion (s ball) (rvw ball) (R ball) (m ball)
                  (u_s ball) (u_sp ball) (u_r ball) (g ball) dt in
              (fst kb, ball_set ball rvw' s' (add (t self) dt)))
           (balls self);
     rails := rails self;
     t := t self;
     num_events := num_events self |}.

(** [evolution_algorithm(t_final)], for at most [fuel] turns of the loop:
    the system the loop ends with, or nothing when the turns run out. *)
Fixpoint evolution_algorithm (fuel : nat) (energy_start : float)
    (t_final : option float) (self : System) : Traced (option System) :=
  match fuel with
  | O => tret None
  | S fuel =>
      let event := get_next_event self in
      if eqb (Events.time event) inf then tret (Some (end_history self))
      else
        let self := evolve self (sub (Events.time event) (t self)) in
        let self := resolve event self in
        let self := update_history event self in
        (if Nat.eqb (Nat.modulo (num_events self) 10) 0
         then progress_update energy_start self
         else tret tt) ;;;
        match t_final with
        | Some t_final =>
            if leb t_final (t self) then tret (Some self)
            else evolution_algorithm fuel energy_start (Some t_final) self
        | None => evolution_algorithm fuel energy_start None self
        end
  end.

(** X16.  Started on a system at rest, the event loop stops at its first
    test: it marks the history as ended and returns, without moving or
    resolving anything and without a progress report, whatever [t_final]
    is. *)
Theorem evolution_algorithm_at_rest (self : System) (fuel : nat)
    (energy_start : float) (t_final : option float) :
  at_rest self ->
  evolution_algorithm (S fuel) energy_start t_final self =
  ([], Ok (Some (end_history self))).
Proof.
  intros H. cbn [evolution_algorithm].
  destruct (get_next_event_at_rest_sentinel self H) as [-> _].
  reflexivity.
Qed.

End Engine.

(** *** A start energy of 2.75 J *)

Definition demo_system : System := mkSystem [] [] (S754_zero false) 0.

(** The announced total for a start energy of 2.75 is 2, while the nearest
    integer is 3; and for an energy that rose from 1.0 to 1.5 the indicator
    is moved to 0, while the floor of -0.5 is -1. *)
Lemma progress_target_not_rounded :
  progress_target
    (fst (simulate_start (fun _ => of_dyadic 11 (-2)) (fun _ => "2.75")
                         demo_system "NA")) = Some 2%Z /\
  round_of_float (of_dyadic 11 (-2)) = Some 3%Z /\
  progress_positions
    (fst (progress_update (fun _ => of_dyadic 3 (-1)) (fun _ => "1.5")
                          (of_dyadic 1 0) demo_system)) = [0%Z] /\
  floor_of_float (sub (of_dyadic 1 0) (of_dyadic 3 (-1))) = Some (-1)%Z.
Proof. vm_compute. repeat split. Qed.

(** *** Three balls, for the examples *)

Definition demo_ball (name : string) (state : Z) (next : float) : Ball :=
  mkBall name [] state inf inf inf inf inf inf
    (Events.sliding_rolling_transition _ _ _ _ _ (BallObj name) next false).

(** Balls "a" and "c" slide and change state at time 3; "b" is at rest. *)
Definition demo_three : System :=
  mkSystem [("a", demo_ball "a" 2 (of_dyadic 3 0));
            ("b", demo_ball "b" 0 inf);
            ("c", demo_ball "c" 2 (of_dyadic 3 0))]
           [] (of_dyadic 1 0) 0.

(** Every pair collides after one second. *)
Definition demo_collision_time
    (_ _ : Rvw) (_ _ : Z) (_ _ _ _ _ _ _ : float) : float := of_dyadic 1 0.

(** Among equal transition times the last ball, "c", is kept. *)
Example transition_tie_last_ball :
  get_min_transition_event_time demo_three =
  next_transition_event (demo_ball "c" 2 (of_dyadic 3 0)).
Proof. reflexivity. Qed.

(** Among equal collision times the first pair, ("a", "b"), is kept, at
    time 1 + 1. *)
Example ball_ball_tie_first_pair :
  get_min_ball_ball_event_time 0 2 demo_collision_time demo_three =
  BallBallCollision (BallObj "a") (BallObj "b") (of_dyadic 2 0).
Proof. vm_compute. reflexivity. Qed.

(** With no ball at all, the sentinel is returned. *)
Example next_event_of_nothing :
  get_next_event 0 2 demo_collision_time
                 (fun _ _ _ _ _ _ _ _ _ => inf) demo_system =
  NonEvent inf.
Proof. reflexivity. Qed.

(** One ball at rest on a table with one rail. *)
Definition demo_resting : System :=
  mkSystem [("b", demo_ball "b" 0 inf)]
           [("top", mkRail "top" (of_dyadic 0 0) (of_dyadic 1 0) (of_dyadic 1 0))]
           (of_dyadic 1 0) 7.

(** [get_next_event_at_rest] at the resting ball: the sentinel. *)
Lemma get_next_event_at_rest_witness :
  at_rest 0 demo_resting /\
  get_next_event 0 2 demo_collision_time
                 (fun _ _ _ _ _ _ _ _ _ => of_dyadic 1 0) demo_resting =
  NonEvent inf.
Proof.
  assert (H : at_rest 0 demo_resting).
  { intros b [<- | []]. split; reflexivity. }
  split; [exact H |].
  apply (get_next_event_at_rest 0 2 demo_collision_time
           (fun _ _ _ _ _ _ _ _ _ => of_dyadic 1 0) demo_resting H).
Defined.

(** Stand-ins for the outside routines: nothing moves, an ended history is
    marked by the event count 0. *)
Definition demo_motion (st : Z) (r : Rvw) (_ _ _ _ _ _ _ : float) : Rvw * Z :=
  (r, st).
Definition demo_set (b : Ball) (_ : Rvw) (_ : Z) (_ : float) : Ball := b.
Definition demo_resolve (_ : Event) (self : System) : System := self.
Definition demo_end (self : System) : System :=
  mkSystem (balls self) (rails self) (t self) 0.

(** [evolution_algorithm_at_rest] at the resting ball. *)
Lemma evolution_algorithm_at_rest_witness :
  at_rest 0 demo_resting /\
  evolution_algorithm 0 2 demo_collision_time
    (fun _ _ _ _ _ _ _ _ _ => of_dyadic 1 0) (fun _ => inf) (fun _ => "inf")
    demo_motion demo_set demo_resolve demo_resolve demo_end
    1 inf None demo_resting =
  ([], Ok (Some (demo_end demo_resting))).
Proof.
  assert (H : at_rest 0 demo_resting).
  { intros b [<- | []]. split; reflexivity. }
  split; [exact H |].
  apply (evolution_algorithm_at_rest 0 2 demo_collision_time
           (fun _ _ _ _ _ _ _ _ _ => of_dyadic 1 0) (fun _ => inf)
           (fun _ => "inf") demo_motion demo_set demo_resolve demo_resolve
           demo_end demo_resting 0 inf None H).
Defined.

End Evolution.

(* ------------------------------------------------------------------ *)
(** ** pooltool/game/ruleset/datatypes.py *)

Module Ruleset.
Import Py.

Local Open Scope Z_scope.

Record Player : Type := mkPlayer { name : string }.

(** [len(set(names))]: the number of distinct names. *)
Definition distinct_count (names : list string) : nat :=
  List.length (nodup string_dec names).

(** [Player.create_players(names)] *)
Definition create_players (names : option (list string))
    : Result (list Player) :=
  let names :=
    match names with
    | None => ["Player 1"; "Player 2"]
    | Some names => names
    end in
  if negb (Nat.eqb (List.length names) (distinct_count names)) then
    Raise (AssertionError "Player names must be unique")
  else Ok (map mkPlayer names).

Inductive BallInHandOptions : Set :=
| NONE
| ANYWHERE
| BEHIND_LINE
| SEMICIRCLE.

Record ShotConstraints : Type := mkShotConstraints {
  ball_in_hand : BallInHandOptions;
  movable : option (list string);
  cueable : option (list string);
  hittable : list string;
  call_shot : bool;
  ball_call : option string;
  pocket_call : option string
}.

(** [ShotConstraints.cueball(balls)], for a ball collection in insertion
    order. *)
Definition cueball {B : Type} (self : ShotConstraints)
    (balls : list (string * B)) : Result string :=
  match cueable self with
  | None =>
      if Nat.eqb (List.length balls) 0 then Raise (AssertionError "")
      else
        match find (fun cue => contains balls cue) ["cue"; "white"; "yellow"] with
        | Some cue => Ok cue
        | None =>
            match keys balls with
            | k :: _ => Ok k
            | [] => Raise IndexError
            end
        end
  | Some l =>
      match l with
      | k :: _ => Ok k
      | [] => Raise IndexError
      end
  end.

Definition is_set {A : Type} (o : option A) : bool :=
  match o with Some _ => true | None => false end.

(** [ShotConstraints.can_shoot()] *)
Definition can_shoot (self : ShotConstraints) : bool :=
  if call_shot self && is_set (ball_call self) && is_set (pocket_call self)
  then true
  else if negb (call_shot self) then true
  else false.

Record ShotInfo : Type := mkShotInfo {
  player : Player;
  legal : bool;
  reason : string;
  turn_over : bool;
  game_over : bool;
  winner : option Player;
  info_score : list (string * Z)
}.

Lemma distinct_count_le (names : list string) :
  (distinct_count names <= List.length names)%nat.
Proof.
  unfold distinct_count. induction names as [| a l IH]; simpl; auto.
  destruct (in_dec string_dec a l); simpl; lia.
Qed.

Lemma distinct_count_NoDup (names : list string) :
  List.length names = distinct_count names <-> NoDup names.
Proof.
  split.
  - unfold distinct_count. induction names as [| a l IH]; simpl; intros H.
    + constructor.
    + destruct (in_dec string_dec a l) as [Hin | Hin].
      * pose proof (distinct_count_le l) as Hle. unfold distinct_count in Hle.
        lia.
      * simpl in H. constructor; auto.
  - intros H. unfold distinct_count. rewrite nodup_fixed_point; auto.
Qed.

Definition names_must_be_unique : Exception :=
  AssertionError "Player names must be unique".

(** C7.  Without names, [create_players] returns the two players
    "Player 1" and "Player 2" in that order; with names, it raises the
    assertion error as soon as one name stands at two positions, and
    otherwise returns one player per name, in order. *)
Theorem create_players_spec :
  create_players None = Ok [mkPlayer "Player 1"; mkPlayer "Player 2"] /\
  (forall names i j a,
     i <> j -> nth_error names i = Some a -> nth_error names j = Some a ->
     create_players (Some names) = Raise names_must_be_unique) /\
  (forall names,
     NoDup names -> create_players (Some names) = Ok (map mkPlayer names)) /\
  create_players (Some ["A"; "B"; "A"]) = Raise names_must_be_unique.
Proof.
  split; [reflexivity |]. split; [| split; [| reflexivity]].
  - intros names i j a Hij Hi Hj. unfold create_players.
    destruct (Nat.eqb (List.length names) (distinct_count names)) eqn:E;
      [| reflexivity].
    apply Nat.eqb_eq, distinct_count_NoDup in E.
    exfalso. apply Hij.
    apply (proj1 (NoDup_nth_error names) E).
    + apply nth_error_Some. rewrite Hi. discriminate.
    + rewrite Hi, Hj. reflexivity.
  - intros names H. unfold create_players.
    apply distinct_count_NoDup in H. rewrite H, Nat.eqb_refl. reflexivity.
Qed.

Lemma contains_In {B : Type} (balls : list (string * B)) (k : string) :
  contains balls k = true <-> In k (keys balls).
Proof.
  unfold contains. rewrite existsb_exists. split.
  - intros (x & Hx & E). apply String.eqb_eq in E. subst. exact Hx.
  - intros H. exists k. split; auto. apply String.eqb_refl.
Qed.

(** The conventional cue-ball ids, in probing order. *)
Definition conventional_ids : list string := ["cue"; "white"; "yellow"].

(** C8.  With an explicit cueable list, [cueball] returns its first entry.
    With none and a non-empty ball collection, it returns the first of
    "cue", "white", "yellow" that is a key of the collection, and the
    collection's first key when none of the three is. *)
Theorem cueball_spec (B : Type) (self : ShotConstraints)
    (balls : list (string * B)) :
  (forall k rest, cueable self = Some (k :: rest) -> cueball self balls = Ok k) /\
  (cueable self = None -> balls <> [] ->
   (In "cue" (keys balls) -> cueball self balls = Ok "cue") /\
   (~ In "cue" (keys balls) -> In "white" (keys balls) ->
    cueball self balls = Ok "white") /\
   (~ In "cue" (keys balls) -> ~ In "white" (keys balls) ->
    In "yellow" (keys balls) -> cueball self balls = Ok "yellow") /\
   (~ In "cue" (keys balls) -> ~ In "white" (keys balls) ->
    ~ In "yellow" (keys balls) ->
    exists k v rest, balls = (k, v) :: rest /\ cueball self balls = Ok k)) /\
  (forall b1 b2 : B,
     cueable self = None ->
     cueball self [("8", b1); ("cue", b2)] = Ok "cue" /\
     cueball self [("red", b1); ("yellow", b2)] = Ok "yellow").
Proof.
  split; [| split].
  - intros k rest H. unfold cueball. rewrite H. reflexivity.
  - intros Hc Hne. unfold cueball. rewrite Hc.
    destruct balls as [| [k0 v0] rest]; [congruence |].
    cbn [List.length Nat.eqb find].
    repeat split.
    + intros H. apply contains_In in H. rewrite H. reflexivity.
    + intros H1 H2. apply contains_In in H2.
      destruct (contains ((k0, v0) :: rest) "cue") eqn:E1;
        [apply contains_In in E1; contradiction |].
      rewrite H2. reflexivity.
    + intros H1 H2 H3. apply contains_In in H3.
      destruct (contains ((k0, v0) :: rest) "cue") eqn:E1;
        [apply contains_In in E1; contradiction |].
      destruct (contains ((k0, v0) :: rest) "white") eqn:E2;
        [apply contains_In in E2; contradiction |].
      rewrite H3. reflexivity.
    + intros H1 H2 H3.
      destruct (contains ((k0, v0) :: rest) "cue") eqn:E1;
        [apply contains_In in E1; contradiction |].
      destruct (contains ((k0, v0) :: rest) "white") eqn:E2;
        [apply contains_In in E2; contradiction |].
      destruct (contains ((k0, v0) :: rest) "yellow") eqn:E3;
        [apply contains_In in E3; contradiction |].
      exists k0, v0, rest. split; reflexivity.
  - intros b1 b2 Hc. unfold cueball. rewrite Hc. split; reflexivity.
Qed.

(** C10.  With an explicit cueable list, the result of [cueball] does not
    depend on the ball collection: a non-empty list yields its first entry,
    also on an empty collection, and an empty list raises; the assertion on
    the collection's size is reached only when no list is set. *)
Theorem cueball_explicit_list (B : Type) (self : ShotConstraints) :
  (forall l (balls balls' : list (string * B)),
     cueable self = Some l -> cueball self balls = cueball self balls') /\
  (forall k rest,
     cueable self = Some (k :: rest) ->
     cueball self ([] : list (string * B)) = Ok k) /\
  (forall (balls : list (string * B)),
     cueable self = Some [] -> cueball self balls = Raise IndexError) /\
  (forall l (balls : list (string * B)),
     cueable self = Some l ->
     (completed (cueball self balls) = false <-> l = [])) /\
  (cueable self = None ->
   cueball self ([] : list (string * B)) = Raise (AssertionError "")).
Proof.
  repeat split.
  - intros l balls balls' H. unfold cueball. rewrite H. reflexivity.
  - intros k rest H. unfold cueball. rewrite H. reflexivity.
  - intros balls H. unfold cueball. rewrite H. reflexivity.
  - unfold cueball. rewrite H. destruct l; [reflexivity | discriminate].
  - intros ->. unfold cueball. rewrite H. reflexivity.
  - intros H. unfold cueball. rewrite H. reflexivity.
Qed.

Lemma find_some_in {A : Type} (f : A -> bool) (l : list A) (x : A) :
  find f l = Some x -> In x l /\ f x = true.
Proof.
  induction l as [| y l IH]; simpl; [discriminate |].
  destruct (f y) eqn:E.
  - intros H. inversion H; subst. auto.
  - intros H. apply IH in H. tauto.
Qed.

Lemma cueball_errors {B : Type} (self : ShotConstraints)
    (balls : list (string * B)) (e : Exception) :
  cueball self balls = Raise e -> e = AssertionError "" \/ e = IndexError.
Proof.
  unfold cueball. destruct (cueable self) as [[| k l] |].
  - intros H. inversion H. auto.
  - discriminate.
  - destruct (Nat.eqb (List.length balls) 0).
    + intros H. inversion H. auto.
    + destruct (find _ _); [discriminate |].
      destruct (keys balls); [| discriminate]. intros H. inversion H. auto.
Qed.

(** X13.  Without an explicit cueable list, [cueball] completes exactly on
    a non-empty ball collection, and the id it returns is always a key of
    that collection. *)
Theorem cueball_is_a_ball (B : Type) (self : ShotConstraints)
    (balls : list (string * B)) :
  cueable self = None ->
  completed (cueball self balls) = negb (Nat.eqb (List.length balls) 0) /\
  forall k, cueball self balls = Ok k -> In k (keys balls).
Proof.
  intros Hc. unfold cueball. rewrite Hc.
  destruct balls as [| [k0 v0] rest]; cbn [List.length Nat.eqb negb].
  - split; [reflexivity | discriminate].
  - destruct (find (fun cue => contains ((k0, v0) :: rest) cue)
                   ["cue"; "white"; "yellow"]) as [c |] eqn:E.
    + split; [reflexivity |]. intros k H. inversion H; subst.
      apply find_some_in in E. apply contains_In. tauto.
    + split; [reflexivity |]. intros k H. inversion H; subst.
      left. reflexivity.
Qed.

(** X15.  A shot can be played unless it must be called and the called
    ball or the called pocket is still unset: with [call_shot] set and
    both calls unset [can_shoot] is false, and setting both makes it
    true. *)
Theorem can_shoot_spec (self : ShotConstraints) :
  can_shoot self =
    negb (call_shot self) ||
    (is_set (ball_call self) && is_set (pocket_call self)) /\
  (call_shot self = true -> ball_call self = None -> pocket_call self = None ->
   can_shoot self = false /\
   forall b p,
     can_shoot
       (mkShotConstraints (ball_in_hand self) (movable self) (cueable self)
          (hittable self) (call_shot self) (Some b) (Some p)) = true).
Proof.
  unfold can_shoot. split.
  - destruct (call_shot self), (ball_call self), (pocket_call self); reflexivity.
  - intros H1 H2 H3. rewrite H1, H2, H3. simpl. split; reflexivity.
Qed.

(** *** Lists as Python has them *)

Definition of_option {A : Type} (o : option A) : Result A :=
  match o with
  | Some x => Ok x
  | None => Raise IndexError
  end.

(** [l[i]] on a list: a negative index counts from the end. *)
Definition index {A : Type} (l : list A) (i : Z) : Result A :=
  let n := Z.of_nat (List.length l) in
  let j := if i <? 0 then i + n else i in
  of_option (if (0 <=? j) && (j <? n) then nth_error l (Z.to_nat j) else None).

(** The values a generator yields, up to the first exception. *)
Fixpoint collect {A : Type} (l : list (Result A)) : Result (list A) :=
  match l with
  | [] => Ok []
  | r :: rest => (x <- r ;; xs <- collect rest ;; Ok (x :: xs))%py
  end.

(** [l] read from position [k] on, then from the start up to [k]. *)
Definition rotate {A : Type} (k : nat) (l : list A) : list A :=
  skipn k l ++ firstn k l.

Lemma index_in_range {A : Type} (l : list A) (i : Z) :
  0 <= i < Z.of_nat (List.length l) ->
  index l i = of_option (nth_error l (Z.to_nat i)) /\
  exists x, nth_error l (Z.to_nat i) = Some x.
Proof.
  intros H. unfold index.
  replace (i <? 0) with false by (symmetry; apply Z.ltb_ge; lia).
  replace (0 <=? i) with true by (symmetry; apply Z.leb_le; lia).
  replace (i <? Z.of_nat (List.length l)) with true
    by (symmetry; apply Z.ltb_lt; lia).
  split; [reflexivity |].
  destruct (nth_error l (Z.to_nat i)) as [x |] eqn:E; [eauto |].
  apply nth_error_None in E. lia.
Qed.

Lemma map_nth_error_seq {A : Type} (l : list A) :
  map (nth_error l) (seq 0 (List.length l)) = map Some l.
Proof.
  induction l as [| x l IH]; simpl; auto.
  f_equal. rewrite <- seq_shift, map_map. exact IH.
Qed.

Lemma collect_nth_error {A : Type} (l : list A) :
  collect (map (fun i => of_option (nth_error l i)) (seq 0 (List.length l))) =
  Ok l.
Proof.
  rewrite <- (map_map (nth_error l) of_option), map_nth_error_seq, map_map.
  simpl. induction l as [| x l IH]; simpl; auto. rewrite IH. reflexivity.
Qed.

Lemma length_rotate {A : Type} (k : nat) (l : list A) :
  List.length (rotate k l) = List.length l.
Proof.
  unfold rotate. rewrite length_app, length_skipn, length_firstn. lia.
Qed.

Lemma nth_error_rotate {A : Type} (k i : nat) (l : list A) :
  (k < List.length l)%nat -> (i < List.length l)%nat ->
  nth_error (rotate k l) i =
  nth_error l (if (k + i <? List.length l)%nat then k + i
               else k + i - List.length l)%nat.
Proof.
  intros Hk Hi. unfold rotate.
  destruct (Nat.ltb_spec (k + i) (List.length l)).
  - rewrite nth_error_app1 by (rewrite length_skipn; lia).
    apply nth_error_skipn.
  - rewrite nth_error_app2 by (rewrite length_skipn; lia).
    rewrite length_skipn, nth_error_firstn.
    replace (i - (List.length l - k) <? k)%nat with true
      by (symmetry; apply Nat.ltb_lt; lia).
    f_equal. lia.
Qed.

Lemma skipn_head {A : Type} (k : nat) (l : list A) (x : A) :
  nth_error l k = Some x -> skipn k l = x :: skipn (S k) l.
Proof.
  revert l. induction k as [| k IH]; intros [| y l] H; try discriminate.
  - inversion H. reflexivity.
  - simpl in H. simpl. apply IH in H. exact H.
Qed.

(** [(t + i) mod n], for [0 <= i < n], in terms of [t mod n]. *)
Lemma mod_shift (t n i : Z) :
  0 < n -> 0 <= i < n ->
  (t + i) mod n =
  if t mod n + i <? n then t mod n + i else t mod n + i - n.
Proof.
  intros Hn Hi. pose proof (Z.mod_pos_bound t n Hn) as Ha.
  rewrite <- Zplus_mod_idemp_l.
  destruct (Z.ltb_spec (t mod n + i) n).
  - apply Z.mod_small. lia.
  - transitivity ((t mod n + i - n + 1 * n) mod n); [f_equal; lia |].
    rewrite Z_mod_plus_full. apply Z.mod_small. lia.
Qed.

Section Game.

(** The ball objects and the timer come from modules that are not among the
    sources; the timer's two readings are taken as they come. *)
Variable Ball : Type.
Variable Timer : Type.
Variable new_timer : Timer.
Variable timestamp : Timer -> PyFloat.float.
Variable time_elapsed : Timer -> string -> string.

(** One entry of [Log.msgs]. *)
Record LogEntry : Type := mkLogEntry {
  time : PyFloat.float;
  elapsed : string;
  msg : string;
  quiet : bool;
  sentiment : string;
  broadcast : bool
}.

Record Log : Type := mkLog {
  timer : Timer;
  msgs : list LogEntry;
  update : bool
}.

(** [Log()] *)
Definition new_log : Log :=
  {| timer := new_timer; msgs := []; update := false |}.

(** [Log.add_msg(msg, sentiment, quiet)] *)
Definition add_msg (self : Log) (msg : string) (sentiment : string)
    (quiet : bool) : Log :=
  {| timer := timer self;
     msgs := msgs self ++
             [{| time := timestamp (timer self);
                 elapsed := time_elapsed (timer self) "{minutes}:{seconds}";
                 msg := msg;
                 quiet := quiet;
                 sentiment := sentiment;
                 broadcast := false |}];
     update := if negb quiet then true else update self |}.

(** The parts of a shot's [System] that the ruleset touches:
    [shot.cue.cue_ball_id] and [shot.balls]. *)
Record Cue : Type := mkCue { cue_ball_id : string }.

Record System : Type := mkSystem {
  cue : Cue;
  balls : list (string * Ball)
}.

(** The attributes of a [Ruleset]; [shot_info] is unset until the first
    [process_shot]. *)
Record Ruleset : Type := mkRuleset {
  score : list (string * Z);
  shot_number : Z;
  turn_number : Z;
  shot_constraints : ShotConstraints;
  shot_info : option ShotInfo;
  players : list Player;
  active_idx : Z;
  log : Log
}.

(** The abstract methods a concrete ruleset supplies; they read the ruleset
    and the shot. *)
Variable build_shot_info : Ruleset -> System -> ShotInfo.
Variable next_shot_constraints : Ruleset -> System -> ShotConstraints.
Variable initial_shot_constraints : ShotConstraints.
Variable respot_balls : Ruleset -> System -> System.

(** [Ruleset.__init__(player_names)] *)
Definition init (player_names : option (list string)) : Result Ruleset :=
  (players <- create_players player_names ;;
   Ok {| score := [];
         shot_number := 0;
         turn_number := 0;
         shot_constraints := initial_shot_constraints;
         shot_info := None;
         players := players;
         active_idx := 0;
         log := new_log |})%py.

(** [a % b] on ints. *)
Definition py_mod (a b : Z) : Result Z :=
  if Z.eqb b 0 then Raise ZeroDivisionError else Ok (a mod b).

(** [Ruleset.set_next_player()] *)
Definition set_next_player (self : Ruleset) : Result Ruleset :=
  (idx <- py_mod (turn_number self) (Z.of_nat (List.length (players self))) ;;
   Ok {| score := score self;
         shot_number := shot_number self;
         turn_number := turn_number self;
         shot_constraints := shot_constraints self;
         shot_info := shot_info self;
         players := players self;
         active_idx := idx;
         log := log self |})%py.

(** [Ruleset.process_shot(shot)] *)
Definition process_shot (self : Ruleset) (shot : System) : Ruleset * System :=
  let info := build_shot_info self shot in
  let self :=
    {| score := info_score info;
       shot_number := shot_number self;
       turn_number := turn_number self;
       shot_constraints := shot_constraints self;
       shot_info := Some info;
       players := players self;
       active_idx := active_idx self;
       log := log self |} in
  (self, respot_balls self shot).

Definition with_log (self : Ruleset) (l : Log) : Ruleset :=
  {| score := score self;
     shot_number := shot_number self;
     turn_number := turn_number self;
     shot_constraints := shot_constraints self;
     shot_info := shot_info self;
     players := players self;
     active_idx := active_idx self;
     log := l |}.

Definition with_counters (self : Ruleset) (turn shots : Z) : Ruleset :=
  {| score := score self;
     shot_number := shots;
     turn_number := turn;
     shot_constraints := shot_constraints self;
     shot_info := shot_info self;
     players := players self;
     active_idx := active_idx self;
     log := log self |}.

Definition with_shot_constraints (self : Ruleset) (c : ShotConstraints)
    : Ruleset :=
  {| score := score self;
     shot_number := shot_number self;
     turn_number := turn_number self;
     shot_constraints := c;
     shot_info := shot_info self;
     players := players self;
     active_idx := active_idx self;
     log := log self |}.

(** [Ruleset.advance(shot)]: what a call returns, or the exception it
    raises; [advance_effect] below also gives the state a call leaves. *)
Definition advance (self : Ruleset) (shot : System)
    : Result (Ruleset * System) :=
  match shot_info self with
  | None => Raise AttributeError
  | Some info =>
      if game_over info then
        match winner info with
        | Some winner =>
            Ok (with_log self
                  (add_msg (log self)
                     ("Game over! " ++ name winner ++ " wins!")%string
                     "good" false),
                shot)
        | None =>
            Ok (with_log self
                  (add_msg (log self) "Game over! Tie game!" "good" false),
                shot)
        end
      else
        let self :=
          with_counters self
            (if turn_over info then turn_number self + 1 else turn_number self)
            (shot_number self + 1) in
        let self := with_shot_constraints self (next_shot_constraints self shot) in
        (id <- cueball (shot_constraints self) (balls shot) ;;
         let shot := {| cue := {| cue_ball_id := id |}; balls := balls shot |} in
         self <- set_next_player self ;;
         Ok (self, shot))%py
  end.

(** [Ruleset.process_and_advance(shot)]: what a call returns or raises;
    [process_and_advance_effect] below also gives the state it leaves. *)
Definition process_and_advance (self : Ruleset) (shot : System)
    : Result (Ruleset * System) :=
  let (self, shot) := process_shot self shot in
  advance self shot.

(** *** Game over *)

(** The text logged by [advance] once the game is over. *)
Definition game_over_text (info : ShotInfo) : string :=
  match winner info with
  | Some w => ("Game over! " ++ name w ++ " wins!")%string
  | None => "Game over! Tie game!"
  end.

(** C3.  When the current [shot_info] reports [game_over], [advance]
    returns normally, appends exactly one entry to the log, reading
    "Game over! <winner> wins!" when a winner is defined and the tie message
    when not, with sentiment "good", and changes neither [turn_number],
    [shot_number], [active_idx], [shot_constraints] nor the shot. *)
Theorem advance_game_over (self : Ruleset) (shot : System) (info : ShotInfo) :
  shot_info self = Some info ->
  game_over info = true ->
  exists (self' : Ruleset) (entry : LogEntry),
    advance self shot = Ok (self', shot) /\
    msgs (log self') = msgs (log self) ++ [entry] /\
    msg entry = game_over_text info /\
    sentiment entry = "good" /\
    quiet entry = false /\
    broadcast entry = false /\
    turn_number self' = turn_number self /\
    shot_number self' = shot_number self /\
    active_idx self' = active_idx self /\
    shot_constraints self' = shot_constraints self /\
    players self' = players self /\
    score self' = score self /\
    shot_info self' = shot_info self.
Proof.
  intros Hinfo Hover. unfold advance, game_over_text. rewrite Hinfo, Hover.
  destruct (winner info) as [w |]; eexists; eexists;
    (split; [reflexivity |]); simpl; repeat split; try reflexivity;
    exact Hinfo.
Qed.

(** *** The active player *)

(** One completed call of a state-changing method. *)
Inductive step : Ruleset -> Ruleset -> Prop :=
| step_process_shot (self : Ruleset) (shot : System) :
    step self (fst (process_shot self shot))
| step_advance (self self' : Ruleset) (shot shot' : System) :
    advance self shot = Ok (self', shot') -> step self self'
| step_process_and_advance (self self' : Ruleset) (shot shot' : System) :
    process_and_advance self shot = Ok (self', shot') -> step self self'.

(** The rulesets a game passes through as long as no call raises: the
    constructed one, then one completed call after another.  [attainable]
    below also follows the calls that raise. *)
Inductive reachable (player_names : option (list string)) : Ruleset -> Prop :=
| reachable_init (self : Ruleset) :
    init player_names = Ok self -> reachable player_names self
| reachable_step (self self' : Ruleset) :
    reachable player_names self -> step self self' ->
    reachable player_names self'.

(** [0 <= active_idx < len(players)] *)
Definition active_idx_in_range (self : Ruleset) : bool :=
  (0 <=? active_idx self) &&
  (active_idx self <? Z.of_nat (List.length (players self))).

(** [active_idx] is [turn_number mod len(players)]. *)
Definition active_idx_derived (self : Ruleset) : Prop :=
  active_idx self =
  turn_number self mod Z.of_nat (List.length (players self)).

Lemma set_next_player_ok (self self' : Ruleset) :
  set_next_player self = Ok self' ->
  players self <> [] /\ players self' = players self /\
  turn_number self' = turn_number self /\ active_idx_derived self'.
Proof.
  unfold set_next_player, py_mod, active_idx_derived.
  destruct (Z.eqb_spec (Z.of_nat (List.length (players self))) 0) as [E | E];
    simpl; intros H; inversion H; subst; simpl.
  repeat split; auto. intros Hnil. rewrite Hnil in E. simpl in E. lia.
Qed.

(** What a completed [advance] does to the active index: nothing when the
    game is over, the recomputation of [set_next_player] otherwise. *)
Lemma advance_active_idx (self self' : Ruleset) (shot shot' : System) :
  advance self shot = Ok (self', shot') ->
  players self' = players self /\
  ((active_idx self' = active_idx self /\ turn_number self' = turn_number self) \/
   active_idx_derived self').
Proof.
  unfold advance. destruct (shot_info self) as [info |]; [| discriminate].
  destruct (game_over info).
  - destruct (winner info); intros H; inversion H; subst; simpl; auto.
  - destruct (cueball _ _) as [k | e]; simpl; [| discriminate].
    destruct (set_next_player _) as [r | e] eqn:E; simpl; [| discriminate].
    intros H. inversion H; subst.
    apply set_next_player_ok in E. destruct E as (_ & Hp & _ & Hd).
    split; [rewrite Hp; reflexivity | right; exact Hd].
Qed.

Lemma step_active_idx (self self' : Ruleset) :
  step self self' ->
  players self' = players self /\
  ((active_idx self' = active_idx self /\ turn_number self' = turn_number self) \/
   active_idx_derived self').
Proof.
  intros H. destruct H as [self shot | self self' shot shot' H
                          | self self' shot shot' H].
  - simpl. auto.
  - eapply advance_active_idx; eauto.
  - unfold process_and_advance in H.
    destruct (process_shot self shot) as [r sh] eqn:E.
    apply advance_active_idx in H. unfold process_shot in E.
    inversion E; subst; clear E. simpl in H. exact H.
Qed.

Lemma reachable_active_idx_derived (player_names : option (list string))
    (self : Ruleset) :
  reachable player_names self -> active_idx_derived self.
Proof.
  induction 1 as [self Hinit | self self' Hr IH Hs].
  - unfold init in Hinit. destruct (create_players player_names); simpl in Hinit;
      inversion Hinit; subst. unfold active_idx_derived. simpl.
    rewrite Zmod_0_l. reflexivity.
  - apply step_active_idx in Hs.
    destruct Hs as (Hp & [[Ha Ht] | Hd]); auto.
    unfold active_idx_derived in *. rewrite Ha, Ht, Hp. exact IH.
Qed.

(** *** What a call leaves behind *)

(** [Ruleset.advance(shot)] with the state it leaves: the ruleset and the
    shot after the call, and the exception when it raised.  The counters and
    the constraints are written before [cueball] is called, and the cue-ball
    id before [set_next_player], so a raising call leaves them written. *)
Definition advance_effect (self : Ruleset) (shot : System)
    : Ruleset * System * option Exception :=
  match shot_info self with
  | None => (self, shot, Some AttributeError)
  | Some info =>
      if game_over info then
        match winner info with
        | Some winner =>
            (with_log self
               (add_msg (log self)
                  ("Game over! " ++ name winner ++ " wins!")%string
                  "good" false),
             shot, None)
        | None =>
            (with_log self
               (add_msg (log self) "Game over! Tie game!" "good" false),
             shot, None)
        end
      else
        let self :=
          with_counters self
            (if turn_over info then turn_number self + 1 else turn_number self)
            (shot_number self + 1) in
        let self := with_shot_constraints self (next_shot_constraints self shot) in
        match cueball (shot_constraints self) (balls shot) with
        | Raise e => (self, shot, Some e)
        | Ok id =>
            let shot := {| cue := {| cue_ball_id := id |}; balls := balls shot |} in
            match set_next_player self with
            | Raise e => (self, shot, Some e)
            | Ok self => (self, shot, None)
            end
        end
  end.

(** [Ruleset.process_and_advance(shot)] with the state it leaves. *)
Definition process_and_advance_effect (self : Ruleset) (shot : System)
    : Ruleset * System * option Exception :=
  let (self, shot) := process_shot self shot in
  advance_effect self shot.

(** What the caller sees of a call. *)
Definition outcome (r : Ruleset * System * option Exception)
    : Result (Ruleset * System) :=
  match r with
  | (self, shot, None) => Ok (self, shot)
  | (_, _, Some e) => Raise e
  end.

Lemma advance_outcome (self : Ruleset) (shot : System) :
  advance self shot = outcome (advance_effect self shot).
Proof.
  unfold advance, advance_effect.
  destruct (shot_info self) as [info |]; [| reflexivity].
  destruct (game_over info); [destruct (winner info); reflexivity |].
  destruct (cueball _ _) as [k | e]; cbn [bind]; [| reflexivity].
  destruct (set_next_player _) as [r | e]; reflexivity.
Qed.

Lemma process_and_advance_outcome (self : Ruleset) (shot : System) :
  process_and_advance self shot =
  outcome (process_and_advance_effect self shot).
Proof.
  unfold process_and_advance, process_and_advance_effect.
  destruct (process_shot self shot). apply advance_outcome.
Qed.

(** One call of a state-changing method, completed or not. *)
Inductive call : Ruleset -> Ruleset -> Prop :=
| call_process_shot (self : Ruleset) (shot : System) :
    call self (fst (process_shot self shot))
| call_advance (self : Ruleset) (shot : System) :
    call self (fst (fst (advance_effect self shot)))
| call_process_and_advance (self : Ruleset) (shot : System) :
    call self (fst (fst (process_and_advance_effect self shot))).

(** The states a ruleset object can be in: the constructed one, then one
    call after another, whether it returned or raised. *)
Inductive attainable (player_names : option (list string)) : Ruleset -> Prop :=
| attainable_init (self : Ruleset) :
    init player_names = Ok self -> attainable player_names self
| attainable_call (self self' : Ruleset) :
    attainable player_names self -> call self self' ->
    attainable player_names self'.

Lemma outcome_ok (r : Ruleset * System * option Exception)
    (self : Ruleset) (shot : System) :
  outcome r = Ok (self, shot) -> fst (fst r) = self.
Proof.
  destruct r as [[r0 s0] [e |]]; simpl; [discriminate |].
  intros H. inversion H. reflexivity.
Qed.

Lemma step_call (self self' : Ruleset) : step self self' -> call self self'.
Proof.
  intros H. destruct H as [self shot | self self' shot shot' H
                          | self self' shot shot' H].
  - apply call_process_shot.
  - rewrite advance_outcome in H. apply outcome_ok in H. subst self'.
    apply call_advance.
  - rewrite process_and_advance_outcome in H. apply outcome_ok in H.
    subst self'. apply call_process_and_advance.
Qed.

Lemma reachable_attainable (player_names : option (list string))
    (self : Ruleset) :
  reachable player_names self -> attainable player_names self.
Proof.
  induction 1 as [self Hinit | self self' Hr IH Hs].
  - apply attainable_init. exact Hinit.
  - eapply attainable_call; [exact IH | apply step_call; exact Hs].
Qed.

(** What one call of [advance] does to the roster, the turn counter and the
    active index, whether it returns or raises. *)
Lemma advance_effect_idx (self : Ruleset) (shot : System) :
  players (fst (fst (advance_effect self shot))) = players self /\
  turn_number self <= turn_number (fst (fst (advance_effect self shot))) /\
  (active_idx (fst (fst (advance_effect self shot))) = active_idx self \/
   active_idx_derived (fst (fst (advance_effect self shot)))).
Proof.
  unfold advance_effect.
  destruct (shot_info self) as [info |]; [| simpl; repeat split; auto; lia].
  destruct (game_over info).
  - destruct (winner info); simpl; repeat split; auto; lia.
  - assert (Ht : turn_number self <=
                 (if turn_over info then turn_number self + 1
                  else turn_number self))
      by (destruct (turn_over info); lia).
    destruct (cueball _ _) as [k | e]; [| simpl; repeat split; auto].
    destruct (set_next_player _) as [r | e] eqn:E; [| simpl; repeat split; auto].
    apply set_next_player_ok in E. destruct E as (_ & Hp & Htn & Hd).
    cbn [fst]. rewrite Hp, Htn. simpl. repeat split; auto.
Qed.

Lemma call_idx (self self' : Ruleset) :
  call self self' ->
  players self' = players self /\
  turn_number self <= turn_number self' /\
  (active_idx self' = active_idx self \/ active_idx_derived self').
Proof.
  intros H. destruct H as [self shot | self shot | self shot].
  - simpl. repeat split; auto. lia.
  - apply advance_effect_idx.
  - unfold process_and_advance_effect, process_shot.
    apply (advance_effect_idx
             {| score := info_score (build_shot_info self shot);
                shot_number := shot_number self;
                turn_number := turn_number self;
                shot_constraints := shot_constraints self;
                shot_info := Some (build_shot_info self shot);
                players := players self;
                active_idx := active_idx self;
                log := log self |}).
Qed.

(** The active index is the remainder of a turn number that was current at
    some point. *)
Lemma attainable_active_idx (player_names : option (list string))
    (self : Ruleset) :
  attainable player_names self ->
  exists t, 0 <= t <= turn_number self /\
            active_idx self = t mod Z.of_nat (List.length (players self)).
Proof.
  induction 1 as [self Hinit | self self' Hr IH Hc].
  - unfold init in Hinit. destruct (create_players player_names);
      simpl in Hinit; inversion Hinit; subst. exists 0. simpl.
    rewrite Zmod_0_l. split; [lia | reflexivity].
  - apply call_idx in Hc. destruct Hc as (Hp & Ht & [Ha | Hd]).
    + destruct IH as (t0 & Ht0 & E). exists t0. rewrite Hp, Ha.
      split; [lia | exact E].
    + destruct IH as (t0 & Ht0 & _). exists (turn_number self').
      split; [lia | exact Hd].
Qed.


(** *** Who plays *)

(** [Ruleset.active_player] *)
Definition active_player (self : Ruleset) : Result Player :=
  index (players self) (active_idx self).

(** [Ruleset.last_player] *)
Definition last_player (self : Ruleset) : Result Player :=
  (last_idx <- py_mod (active_idx self - 1)
                      (Z.of_nat (List.length (players self))) ;;
   index (players self) last_idx)%py.

(** [Ruleset.player_order()]: the players the generator yields. *)
Definition player_order (self : Ruleset) : Result (list Player) :=
  collect
    (map (fun i =>
            (k <- py_mod (turn_number self + Z.of_nat i)
                         (Z.of_nat (List.length (players self))) ;;
             index (players self) k)%py)
         (seq 0 (List.length (players self)))).

(** The roster position of the player whose turn it is. *)
Definition turn_position (self : Ruleset) : nat :=
  Z.to_nat (turn_number self mod Z.of_nat (List.length (players self))).

Lemma player_at_turn_offset (self : Ruleset) (i : nat) :
  (i < List.length (players self))%nat ->
  (k <- py_mod (turn_number self + Z.of_nat i)
               (Z.of_nat (List.length (players self))) ;;
   index (players self) k)%py =
  of_option (nth_error (rotate (turn_position self) (players self)) i).
Proof.
  intros Hi. unfold py_mod, turn_position.
  set (n := Z.of_nat (List.length (players self))).
  assert (Hn : 0 < n) by (unfold n; lia).
  replace (n =? 0) with false by (symmetry; apply Z.eqb_neq; lia).
  cbn [bind].
  pose proof (Z.mod_pos_bound (turn_number self) n Hn) as Ha.
  pose proof (Z.mod_pos_bound (turn_number self + Z.of_nat i) n Hn) as Hb.
  destruct (index_in_range (players self)
              ((turn_number self + Z.of_nat i) mod n) Hb) as [-> _].
  rewrite nth_error_rotate by (fold n; lia).
  f_equal. f_equal.
  rewrite mod_shift by (unfold n; lia). fold n.
  destruct (Z.ltb_spec (turn_number self mod n + Z.of_nat i) n);
    destruct (Nat.ltb_spec
                (Z.to_nat (turn_number self mod n) + i)
                (List.length (players self))); unfold n in *; lia.
Qed.

(** X5.  [player_order()] never raises and yields one full rotation of the
    roster: the players from position [turn_number mod len(players)] to the
    end, then those before it; in particular as many players as the roster
    has, and none for an empty roster.  With [turn_number = 2] a roster
    [p0, p1, p2] is yielded as [p2, p0, p1]. *)
Theorem player_order_rotation (self : Ruleset) :
  player_order self = Ok (rotate (turn_position self) (players self)) /\
  List.length (rotate (turn_position self) (players self)) =
    List.length (players self) /\
  (forall p0 p1 p2,
     players self = [p0; p1; p2] -> turn_number self = 2 ->
     player_order self = Ok [p2; p0; p1]).
Proof.
  assert (H : player_order self =
              Ok (rotate (turn_position self) (players self))).
  { unfold player_order.
    rewrite <- (collect_nth_error (rotate (turn_position self) (players self))).
    rewrite length_rotate. f_equal. apply map_ext_in.
    intros i Hi. apply in_seq in Hi. apply player_at_turn_offset. lia. }
  split; [exact H |]. split; [apply length_rotate |].
  intros p0 p1 p2 Hp Ht. rewrite H. unfold turn_position. rewrite Hp, Ht.
  reflexivity.
Qed.

Lemma player_order_head (self : Ruleset) (p : Player) :
  nth_error (players self) (turn_position self) = Some p ->
  exists rest, player_order self = Ok (p :: rest).
Proof.
  intros Hp. unfold player_order.
  rewrite (map_ext_in _
             (fun i => of_option
                (nth_error (rotate (turn_position self) (players self)) i))).
  - rewrite <- (length_rotate (turn_position self) (players self)).
    rewrite collect_nth_error. unfold rotate.
    rewrite (skipn_head _ _ _ Hp). simpl. eauto.
  - intros i Hi. apply in_seq in Hi. apply player_at_turn_offset. lia.
Qed.

(** A completed [advance], case by case. *)
Lemma advance_cases (self self' : Ruleset) (shot shot' : System) :
  advance self shot = Ok (self', shot') ->
  exists info,
    shot_info self = Some info /\
    ((game_over info = true /\
      self' = with_log self (add_msg (log self) (game_over_text info)
                                     "good" false) /\
      shot' = shot) \/
     (game_over info = false /\ players self <> [] /\
      exists k,
        let turn' := if turn_over info then turn_number self + 1
                     else turn_number self in
        let counted := with_counters self turn' (shot_number self + 1) in
        cueball (next_shot_constraints counted shot) (balls shot) = Ok k /\
        self' = {| score := score self;
                   shot_number := shot_number self + 1;
                   turn_number := turn';
                   shot_constraints := next_shot_constraints counted shot;
                   shot_info := shot_info self;
                   players := players self;
                   active_idx :=
                     turn' mod Z.of_nat (List.length (players self));
                   log := log self |} /\
        shot' = {| cue := {| cue_ball_id := k |}; balls := balls shot |})).
Proof.
  unfold advance, game_over_text.
  destruct (shot_info self) as [info |] eqn:Hinfo; [| discriminate].
  intros H. exists info. split; [reflexivity |].
  destruct (game_over info).
  - left. destruct (winner info); inversion H; auto.
  - right. split; [reflexivity |].
    cbn [shot_constraints with_shot_constraints] in H.
    destruct (cueball _ _) as [k | e] eqn:Hk; [| discriminate].
    cbn [bind] in H. unfold set_next_player, py_mod in H.
    cbn [players with_shot_constraints with_counters turn_number] in H.
    destruct (Z.eqb_spec (Z.of_nat (List.length (players self))) 0) as [E | E];
      [discriminate |].
    cbn [bind] in H. inversion H; subst; clear H.
    split; [intros Hnil; rewrite Hnil in E; simpl in E; lia |].
    exists k. cbv zeta. rewrite Hinfo. repeat split; auto.
Qed.

(** X6.  While the game is not over, a completed [advance] adds one to
    [shot_number], adds one to [turn_number] exactly when the shot ended the
    turn, takes the next shot's constraints from [next_shot_constraints]
    (called with the counters already updated), writes the cue-ball id that
    [cueball] returns into the shot without touching its balls, and leaves
    the score, the log, the roster and [shot_info] as they are. *)
Theorem advance_in_progress (self self' : Ruleset) (shot shot' : System)
    (info : ShotInfo) :
  shot_info self = Some info ->
  game_over info = false ->
  advance self shot = Ok (self', shot') ->
  shot_number self' = shot_number self + 1 /\
  turn_number self' =
    (if turn_over info then turn_number self + 1 else turn_number self) /\
  shot_constraints self' =
    next_shot_constraints
      (with_counters self (turn_number self') (shot_number self')) shot /\
  cueball (shot_constraints self') (balls shot) = Ok (cue_ball_id (cue shot')) /\
  balls shot' = balls shot /\
  score self' = score self /\
  log self' = log self /\
  players self' = players self /\
  shot_info self' = shot_info self.
Proof.
  intros Hinfo Hover H. apply advance_cases in H.
  destruct H as (info' & Hinfo' & [(Hover' & _) | (_ & _ & k & Hk & -> & ->)]).
  - rewrite Hinfo in Hinfo'. inversion Hinfo'; subst. congruence.
  - rewrite Hinfo in Hinfo'. inversion Hinfo'; subst info'. cbv zeta in Hk.
    simpl. repeat split; auto.
Qed.

(** What a completed call does to the two counters. *)
Lemma step_counters (self self' : Ruleset) :
  step self self' ->
  (turn_number self' = turn_number self /\
   shot_number self' = shot_number self) \/
  (shot_number self' = shot_number self + 1 /\
   (turn_number self' = turn_number self \/
    turn_number self' = turn_number self + 1)).
Proof.
  assert (Hadv : forall r r' sh sh',
            advance r sh = Ok (r', sh') ->
            (turn_number r' = turn_number r /\
             shot_number r' = shot_number r) \/
            (shot_number r' = shot_number r + 1 /\
             (turn_number r' = turn_number r \/
              turn_number r' = turn_number r + 1))).
  { intros r r' sh sh' H. apply advance_cases in H.
    destruct H as (info & _ & [(_ & -> & _) | (_ & _ & k & _ & -> & _)]).
    - left. split; reflexivity.
    - right. simpl. destruct (turn_over info); auto. }
  intros H. destruct H as [self shot | self self' shot shot' H
                          | self self' shot shot' H].
  - left. split; reflexivity.
  - eapply Hadv; eauto.
  - unfold process_and_advance, process_shot in H. apply Hadv in H.
    simpl in H. exact H.
Qed.

(** X7.  In every ruleset a game passes through, the two counters are not
    negative and no more turns than shots have been counted:
    [0 <= turn_number <= shot_number]. *)
Theorem counters_ordered (player_names : option (list string))
    (self : Ruleset) :
  reachable player_names self ->
  0 <= turn_number self <= shot_number self.
Proof.
  induction 1 as [self Hinit | self self' Hr IH Hs].
  - unfold init in Hinit. destruct (create_players player_names);
      simpl in Hinit; inversion Hinit; subst. simpl. lia.
  - apply step_counters in Hs. lia.
Qed.

(** The names a roster is built from. *)
Definition roster_names (player_names : option (list string)) : list string :=
  match player_names with
  | None => ["Player 1"; "Player 2"]
  | Some names => names
  end.

(** X8.  In every ruleset a game passes through, the roster is the one
    built at construction: its players carry the given names (the two
    default names when none were given), in order, and no two players have
    the same name. *)
Theorem roster_fixed (player_names : option (list string)) (self : Ruleset) :
  reachable player_names self ->
  map name (players self) = roster_names player_names /\
  NoDup (map name (players self)).
Proof.
  intros Hr.
  assert (H : map name (players self) = roster_names player_names /\
              NoDup (roster_names player_names)).
  { induction Hr as [self Hinit | self self' Hr IH Hs].
    - unfold init, create_players in Hinit. fold (roster_names player_names) in Hinit.
      destruct (Nat.eqb (List.length (roster_names player_names))
                        (distinct_count (roster_names player_names))) eqn:E;
        simpl in Hinit; inversion Hinit; subst. simpl.
      apply Nat.eqb_eq, distinct_count_NoDup in E. split; auto.
      rewrite map_map. simpl. apply map_id.
    - apply step_active_idx in Hs. destruct Hs as [Hp _]. rewrite Hp. exact IH. }
  destruct H as [H1 H2]. split; [exact H1 | rewrite H1; exact H2].
Qed.

Lemma mod_pred_top (n : Z) : 0 < n -> (0 - 1) mod n = n - 1.
Proof.
  intros Hn. transitivity ((n - 1 + (-1) * n) mod n); [f_equal; lia |].
  rewrite Z_mod_plus_full. apply Z.mod_small. lia.
Qed.

(** X9.  Right after construction, with a roster that is not empty, the
    active player is the first player of the roster and [last_player]
    wraps around to the last player of the roster, although nobody has
    played yet. *)
Theorem players_at_construction (player_names : option (list string))
    (self : Ruleset) (p q : Player) (ps front : list Player) :
  init player_names = Ok self ->
  players self = p :: ps ->
  players self = front ++ [q] ->
  active_player self = Ok p /\ last_player self = Ok q.
Proof.
  intros Hinit Hp Hq. unfold init in Hinit.
  destruct (create_players player_names) as [l | e]; simpl in Hinit;
    inversion Hinit; subst; clear Hinit. simpl in Hp, Hq.
  split; [rewrite Hp; reflexivity |].
  unfold last_player, py_mod. cbn [active_idx players].
  assert (Hn : 0 < Z.of_nat (List.length l)) by (rewrite Hp; simpl; lia).
  replace (Z.of_nat (List.length l) =? 0) with false
    by (symmetry; apply Z.eqb_neq; lia).
  cbn [bind]. rewrite mod_pred_top by exact Hn.
  destruct (index_in_range l (Z.of_nat (List.length l) - 1))
    as [-> _]; [lia |].
  rewrite Hq, length_app. simpl.
  replace (Z.to_nat (Z.of_nat (List.length front + 1) - 1))
    with (List.length front) by lia.
  rewrite nth_error_app2, Nat.sub_diag by lia. reflexivity.
Qed.

(** X10.  In every state a ruleset object can be in, also after calls that
    raised, with a roster that is not empty, [active_player] and
    [last_player] return normally: the player at roster position
    [active_idx] and the one at position [(active_idx - 1) mod
    len(players)].  When moreover [active_idx] is current (it equals
    [turn_number mod len(players)]), the active player is the one at
    position [turn_number mod len(players)], the first that
    [player_order()] yields, and the last player is the one at position
    [(turn_number - 1) mod len(players)]. *)
Theorem whose_turn (player_names : option (list string)) (self : Ruleset) :
  attainable player_names self ->
  players self <> [] ->
  exists p q,
    nth_error (players self) (Z.to_nat (active_idx self)) = Some p /\
    active_player self = Ok p /\
    nth_error (players self)
      (Z.to_nat ((active_idx self - 1)
                 mod Z.of_nat (List.length (players self)))) = Some q /\
    last_player self = Ok q /\
    (active_idx_derived self ->
     nth_error (players self) (turn_position self) = Some p /\
     (exists rest, player_order self = Ok (p :: rest)) /\
     nth_error (players self)
       (Z.to_nat ((turn_number self - 1)
                  mod Z.of_nat (List.length (players self)))) = Some q).
Proof.
  intros Hr Hne. apply attainable_active_idx in Hr.
  destruct Hr as (t0 & _ & Hidx).
  set (n := Z.of_nat (List.length (players self))) in *.
  assert (Hn : 0 < n).
  { unfold n. destruct (players self); [congruence | simpl; lia]. }
  pose proof (Z.mod_pos_bound t0 n Hn) as Ha. rewrite <- Hidx in Ha.
  pose proof (Z.mod_pos_bound (active_idx self - 1) n Hn) as Hb.
  destruct (index_in_range (players self) (active_idx self) Ha)
    as [Ep [p Hp]].
  destruct (index_in_range (players self) ((active_idx self - 1) mod n) Hb)
    as [Eq [q Hq]].
  exists p, q. split; [exact Hp |]. split; [| split; [exact Hq | split]].
  - unfold active_player. rewrite Ep, Hp. reflexivity.
  - unfold last_player, py_mod. fold n.
    replace (n =? 0) with false by (symmetry; apply Z.eqb_neq; lia).
    cbn [bind]. rewrite Eq, Hq. reflexivity.
  - intros Hd. unfold active_idx_derived in Hd. fold n in Hd.
    assert (Hp' : nth_error (players self) (turn_position self) = Some p).
    { unfold turn_position. fold n. rewrite <- Hd. exact Hp. }
    split; [exact Hp' |]. split; [apply player_order_head; exact Hp' |].
    rewrite <- Hq, Hd, Zminus_mod_idemp_l. reflexivity.
Qed.

(** X11.  When [advance] completes for a shot that does not end the game,
    on a ruleset whose [active_idx] is current (it equals
    [turn_number mod len(players)], as after construction and after every
    completed [advance] of such a shot): if the shot ended the turn, the
    player who was active becomes the last player; if it did not, the
    active player stays the same.  The active player is defined in both
    rulesets. *)
Theorem turn_hand_over (self self' : Ruleset) (shot shot' : System)
    (info : ShotInfo) :
  active_idx_derived self ->
  shot_info self = Some info ->
  game_over info = false ->
  advance self shot = Ok (self', shot') ->
  completed (active_player self) = true /\
  completed (active_player self') = true /\
  (turn_over info = true -> last_player self' = active_player self) /\
  (turn_over info = false -> active_player self' = active_player self).
Proof.
  intros Hr Hinfo Hover H. unfold active_idx_derived in Hr.
  apply advance_cases in H.
  destruct H as (info' & Hinfo' & [(Hover' & _) | (_ & Hne & k & _ & -> & _)]);
    rewrite Hinfo in Hinfo'; inversion Hinfo'; subst info'; [congruence |].
  set (n := Z.of_nat (List.length (players self))) in *.
  assert (Hn : 0 < n).
  { unfold n. destruct (players self); [congruence | simpl; lia]. }
  assert (Hidx : forall t, completed (index (players self) (t mod n)) = true).
  { intros t. pose proof (Z.mod_pos_bound t n Hn) as Ht.
    destruct (index_in_range (players self) (t mod n) Ht) as [-> [x ->]].
    reflexivity. }
  unfold active_player, last_player, py_mod. cbn [players active_idx].
  fold n. rewrite Hr.
  replace (n =? 0) with false by (symmetry; apply Z.eqb_neq; lia).
  cbn [bind]. repeat split; auto.
  - intros Hto. rewrite Hto, Zminus_mod_idemp_l.
    replace (turn_number self + 1 - 1) with (turn_number self) by lia.
    reflexivity.
  - intros Hto. rewrite Hto. reflexivity.
Qed.

(** X12.  [advance] on a freshly constructed ruleset raises
    [AttributeError], as no shot was processed yet.  [process_and_advance]
    raises nothing but what [cueball] raises (an assertion or index error)
    and the division by zero of an empty roster; it completes whenever the
    shot ends the game, and never completes on an empty roster while the
    game goes on. *)
Theorem process_and_advance_failures (self : Ruleset) (shot : System) :
  (forall player_names,
     init player_names = Ok self -> advance self shot = Raise AttributeError) /\
  (forall e,
     process_and_advance self shot = Raise e ->
     e = AssertionError "" \/ e = IndexError \/ e = ZeroDivisionError) /\
  (game_over (build_shot_info self shot) = true ->
   completed (process_and_advance self shot) = true) /\
  (game_over (build_shot_info self shot) = false ->
   players self = [] ->
   completed (process_and_advance self shot) = false).
Proof.
  split; [| split; [| split]].
  - intros names Hinit. unfold init in Hinit.
    destruct (create_players names); simpl in Hinit; inversion Hinit; subst.
    reflexivity.
  - intros e. unfold process_and_advance, process_shot, advance.
    cbn [shot_info].
    destruct (game_over (build_shot_info self shot)).
    + destruct (winner _); discriminate.
    + destruct (cueball _ _) as [k | e'] eqn:Hk; cbn [bind].
      * unfold set_next_player, py_mod.
        destruct (Z.eqb _ 0); cbn [bind]; [| discriminate].
        intros H. inversion H. auto.
      * intros H. inversion H; subst.
        apply cueball_errors in Hk. tauto.
  - intros Hover. unfold process_and_advance, process_shot, advance.
    cbn [shot_info]. rewrite Hover. destruct (winner _); reflexivity.
  - intros Hover Hnil. unfold process_and_advance, process_shot, advance.
    cbn [shot_info]. rewrite Hover.
    destruct (cueball _ _) as [k | e']; cbn [bind]; [| reflexivity].
    unfold set_next_player, py_mod.
    cbn [players with_shot_constraints with_counters].
    rewrite Hnil. reflexivity.
Qed.

(** *** The log *)

(** One [add_msg] call after another, each given as
    [(msg, sentiment, quiet)]. *)
Definition add_msgs (self : Log) (calls : list (string * string * bool)) : Log :=
  fold_left
    (fun lg c => add_msg lg (fst (fst c)) (snd (fst c)) (snd c)) calls self.

(** What was passed to [add_msg] for an entry. *)
Definition entry_call (e : LogEntry) : string * string * bool :=
  (msg e, sentiment e, quiet e).

(** X14.  The log is append-only: after any sequence of [add_msg] calls the
    earlier entries are still there, in order, followed by one entry per
    call carrying that call's message, sentiment and quiet flag, with
    [broadcast] false; the update flag is raised once a call was not quiet
    and is never lowered. *)
Theorem log_append_only (self : Log) (calls : list (string * string * bool)) :
  exists added,
    msgs (add_msgs self calls) = msgs self ++ added /\
    map entry_call added = calls /\
    Forall (fun e => broadcast e = false) added /\
    update (add_msgs self calls) =
      update self || existsb (fun c => negb (snd c)) calls.
Proof.
  revert self. induction calls as [| [[m sn] q] calls IH]; intros self.
  - exists []. simpl. rewrite app_nil_r, orb_false_r. repeat split. constructor.
  - change (add_msgs self ((m, sn, q) :: calls))
      with (add_msgs (add_msg self m sn q) calls).
    destruct (IH (add_msg self m sn q)) as (added & Hm & Hc & Hb & Hu).
    cbn [fst snd] in *. cbn [add_msg msgs update] in Hm, Hu.
    eexists (_ :: added). rewrite Hm, <- app_assoc. cbn [app].
    split; [reflexivity |]. split; [| split].
    + cbn [map entry_call msg sentiment quiet]. rewrite Hc. reflexivity.
    + constructor; [reflexivity | exact Hb].
    + rewrite Hu. cbn [existsb snd]. destruct q, (update self); reflexivity.
Qed.

End Game.

Arguments mkSystem {Ball} cue balls.
Arguments cue {Ball} s.
Arguments balls {Ball} s.
Arguments mkLog {Timer} timer msgs update.
Arguments timer {Timer} l.
Arguments msgs {Timer} l.
Arguments update {Timer} l.
Arguments mkRuleset {Timer} score shot_number turn_number shot_constraints
  shot_info players active_idx log.
Arguments score {Timer} r.
Arguments shot_number {Timer} r.
Arguments turn_number {Timer} r.
Arguments shot_constraints {Timer} r.
Arguments shot_info {Timer} r.
Arguments players {Timer} r.
Arguments active_idx {Timer} r.
Arguments log {Timer} r.
Arguments init {Timer} new_timer initial_shot_constraints player_names.
Arguments set_next_player {Timer} self.
Arguments process_shot {Ball Timer} build_shot_info respot_balls self shot.
Arguments advance {Ball Timer} timestamp time_elapsed next_shot_constraints
  self shot.
Arguments process_and_advance {Ball Timer} timestamp time_elapsed
  build_shot_info next_shot_constraints respot_balls self shot.
Arguments step {Ball Timer} timestamp time_elapsed build_shot_info
  next_shot_constraints respot_balls _ _.
Arguments reachable {Ball Timer} new_timer timestamp time_elapsed
  build_shot_info next_shot_constraints initial_shot_constraints respot_balls
  player_names _.
Arguments reachable_init {Ball Timer} new_timer timestamp time_elapsed
  build_shot_info next_shot_constraints initial_shot_constraints respot_balls
  player_names self _.
Arguments reachable_step {Ball Timer} new_timer timestamp time_elapsed
  build_shot_info next_shot_constraints initial_shot_constraints respot_balls
  player_names self self' _ _.
Arguments step_process_and_advance {Ball Timer} timestamp time_elapsed
  build_shot_info next_shot_constraints respot_balls self self' shot shot' _.
Arguments active_idx_in_range {Timer} self.
Arguments advance_effect {Ball Timer} timestamp time_elapsed
  next_shot_constraints self shot.
Arguments process_and_advance_effect {Ball Timer} timestamp time_elapsed
  build_shot_info next_shot_constraints respot_balls self shot.
Arguments call {Ball Timer} timestamp time_elapsed build_shot_info
  next_shot_constraints respot_balls _ _.
Arguments call_process_shot {Ball Timer} timestamp time_elapsed
  build_shot_info next_shot_constraints respot_balls self shot.
Arguments call_advance {Ball Timer} timestamp time_elapsed
  build_shot_info next_shot_constraints respot_balls self shot.
Arguments attainable {Ball Timer} new_timer timestamp time_elapsed
  build_shot_info next_shot_constraints initial_shot_constraints respot_balls
  player_names _.
Arguments attainable_init {Ball Timer} new_timer timestamp time_elapsed
  build_shot_info next_shot_constraints initial_shot_constraints respot_balls
  player_names self _.
Arguments attainable_call {Ball Timer} new_timer timestamp time_elapsed
  build_shot_info next_shot_constraints initial_shot_constraints respot_balls
  player_names self self' _ _.
Arguments reachable_attainable {Ball Timer} new_timer timestamp time_elapsed
  build_shot_info next_shot_constraints initial_shot_constraints respot_balls
  player_names self _.
Arguments active_player {Timer} self.
Arguments last_player {Timer} self.
Arguments player_order {Timer} self.
Arguments turn_position {Timer} self.
Arguments step_process_shot {Ball Timer} timestamp time_elapsed
  build_shot_info next_shot_constraints respot_balls self shot.
Arguments active_idx_derived {Timer} self.

(** *** A two-player game, for the examples *)

Definition demo_constraints : ShotConstraints :=
  mkShotConstraints NONE None None [] false None None.

Definition demo_timestamp (_ : unit) : PyFloat.float := S754_zero false.
Definition demo_elapsed (_ : unit) (_ : string) : string := "0:00".

(** A ruleset whose every shot is legal, ends the turn and not the game. *)
Definition demo_build (_ : Ruleset unit) (_ : System unit) : ShotInfo :=
  mkShotInfo (mkPlayer "Player 1") true "" true false None [].
Definition demo_next (_ : Ruleset unit) (_ : System unit) : ShotConstraints :=
  demo_constraints.
Definition demo_respot (_ : Ruleset unit) (shot : System unit) : System unit :=
  shot.

Definition demo_shot : System unit := mkSystem (mkCue "cue") [("cue", tt)].

(** A finished game that Ann won. *)
Definition demo_won : ShotInfo :=
  mkShotInfo (mkPlayer "Ann") true "" true true (Some (mkPlayer "Ann")) [].

Definition demo_finished : Ruleset unit :=
  mkRuleset [] 4 3 demo_constraints (Some demo_won)
            [mkPlayer "Ann"; mkPlayer "Bob"] 1 (mkLog tt [] false).

(** [advance_game_over] at the finished game: one entry is logged and the
    counters stay at turn 3, shot 4, player 1. *)
Lemma advance_game_over_witness :
  shot_info demo_finished = Some demo_won /\
  game_over demo_won = true /\
  exists self' entry,
    advance demo_timestamp demo_elapsed demo_next demo_finished demo_shot =
      Ok (self', demo_shot) /\
    msgs (log self') = [entry] /\
    msg entry = "Game over! Ann wins!" /\
    sentiment entry = "good" /\
    turn_number self' = 3 /\ shot_number self' = 4 /\ active_idx self' = 1.
Proof.
  split; [reflexivity |]. split; [reflexivity |].
  destruct (@advance_game_over unit unit demo_timestamp demo_elapsed demo_next
              demo_finished demo_shot demo_won eq_refl eq_refl)
    as (self' & entry & Ha & Hm & Ht & Hs & _ & _ & Htn & Hsn & Hai & _).
  exists self', entry. repeat split; assumption.
Defined.

(** The default game after its first shot, which ended the turn. *)
Definition demo_second_turn : Ruleset unit :=
  mkRuleset [] 1 1 demo_constraints
            (Some (demo_build demo_finished demo_shot))
            [mkPlayer "Player 1"; mkPlayer "Player 2"] 1 (mkLog tt [] false).

Lemma demo_second_turn_reachable :
  reachable tt demo_timestamp demo_elapsed demo_build demo_next
            demo_constraints demo_respot None demo_second_turn.
Proof.
  eapply reachable_step.
  - apply reachable_init. reflexivity.
  - apply step_process_and_advance with (shot := demo_shot)
                                        (shot' := demo_shot).
    reflexivity.
Qed.

Lemma demo_second_turn_attainable :
  attainable tt demo_timestamp demo_elapsed demo_build demo_next
             demo_constraints demo_respot None demo_second_turn.
Proof. apply reachable_attainable. exact demo_second_turn_reachable. Qed.


(** *** A shot that makes [advance] raise *)

(** A ruleset whose first shot ends the turn and whose later shots end the
    game. *)
Definition demo_build_ending (r : Ruleset unit) (_ : System unit) : ShotInfo :=
  mkShotInfo (mkPlayer "Player 1") true "" true (0 <? shot_number r) None [].

(** A shot without balls: [cueball] raises on it. *)
Definition demo_empty_shot : System unit := mkSystem (mkCue "cue") [].

(** The default game after its first shot was processed, ... *)
Definition demo_stale_1 : Ruleset unit :=
  fst (process_shot demo_build_ending demo_respot
         (mkRuleset [] 0 0 demo_constraints None
                    [mkPlayer "Player 1"; mkPlayer "Player 2"] 0
                    (mkLog tt [] false))
         demo_empty_shot).

(** ... after [advance] raised on it, ... *)
Definition demo_stale_2 : Ruleset unit :=
  fst (fst (advance_effect demo_timestamp demo_elapsed demo_next
              demo_stale_1 demo_empty_shot)).

(** ... after the next shot was processed, ... *)
Definition demo_stale_3 : Ruleset unit :=
  fst (process_shot demo_build_ending demo_respot demo_stale_2 demo_shot).

(** ... and after that shot, which ends the game, was advanced. *)
Definition demo_stale_4 : Ruleset unit :=
  fst (fst (advance_effect demo_timestamp demo_elapsed demo_next
              demo_stale_3 demo_shot)).


(** *** The default game, shot by shot *)

(** The default game as constructed. *)
Definition demo_initial : Ruleset unit :=
  mkRuleset [] 0 0 demo_constraints None
            [mkPlayer "Player 1"; mkPlayer "Player 2"] 0 (mkLog tt [] false).

(** The default game once its first shot is processed. *)
Definition demo_processed : Ruleset unit :=
  mkRuleset [] 0 0 demo_constraints
            (Some (demo_build demo_initial demo_shot))
            [mkPlayer "Player 1"; mkPlayer "Player 2"] 0 (mkLog tt [] false).

(** [advance_in_progress] at the first shot of the default game. *)
Lemma advance_in_progress_witness :
  shot_info demo_processed = Some (demo_build demo_initial demo_shot) /\
  game_over (demo_build demo_initial demo_shot) = false /\
  advance demo_timestamp demo_elapsed demo_next demo_processed demo_shot =
    Ok (demo_second_turn, demo_shot) /\
  shot_number demo_second_turn = 0 + 1 /\
  turn_number demo_second_turn = 0 + 1.
Proof.
  destruct (@advance_in_progress unit unit demo_timestamp demo_elapsed
              demo_next demo_processed demo_second_turn demo_shot demo_shot
              (demo_build demo_initial demo_shot) eq_refl eq_refl eq_refl)
    as (Hs & Ht & _).
  split; [reflexivity |]. split; [reflexivity |]. split; [reflexivity |].
  split; [exact Hs | exact Ht].
Defined.

(** [counters_ordered] after the first shot of the default game. *)
Lemma counters_ordered_witness :
  reachable tt demo_timestamp demo_elapsed demo_build demo_next
            demo_constraints demo_respot None demo_second_turn /\
  0 <= turn_number demo_second_turn <= shot_number demo_second_turn.
Proof.
  split; [exact demo_second_turn_reachable |].
  exact (@counters_ordered unit unit tt demo_timestamp demo_elapsed demo_build
           demo_next demo_constraints demo_respot None demo_second_turn
           demo_second_turn_reachable).
Defined.

(** [roster_fixed] after the first shot of the default game. *)
Lemma roster_fixed_witness :
  reachable tt demo_timestamp demo_elapsed demo_build demo_next
            demo_constraints demo_respot None demo_second_turn /\
  map name (players demo_second_turn) = ["Player 1"; "Player 2"] /\
  NoDup (map name (players demo_second_turn)).
Proof.
  split; [exact demo_second_turn_reachable |].
  exact (@roster_fixed unit unit tt demo_timestamp demo_elapsed demo_build
           demo_next demo_constraints demo_respot None demo_second_turn
           demo_second_turn_reachable).
Defined.

(** [players_at_construction] at the default game: "Player 1" is active and
    [last_player] answers "Player 2". *)
Lemma players_at_construction_witness :
  init tt demo_constraints None = Ok demo_initial /\
  active_player demo_initial = Ok (mkPlayer "Player 1") /\
  last_player demo_initial = Ok (mkPlayer "Player 2").
Proof.
  split; [reflexivity |].
  exact (@players_at_construction unit tt demo_constraints None demo_initial
           (mkPlayer "Player 1") (mkPlayer "Player 2")
           [mkPlayer "Player 2"] [mkPlayer "Player 1"]
           eq_refl eq_refl eq_refl).
Defined.

(** [whose_turn] after the first shot of the default game. *)
Lemma whose_turn_witness :
  attainable tt demo_timestamp demo_elapsed demo_build demo_next
             demo_constraints demo_respot None demo_second_turn /\
  players demo_second_turn <> [] /\
  exists p q,
    active_player demo_second_turn = Ok p /\
    last_player demo_second_turn = Ok q.
Proof.
  assert (Hne : players demo_second_turn <> []) by discriminate.
  split; [exact demo_second_turn_attainable |]. split; [exact Hne |].
  destruct (@whose_turn unit unit tt demo_timestamp demo_elapsed demo_build
              demo_next demo_constraints demo_respot None demo_second_turn
              demo_second_turn_attainable Hne)
    as (p & q & _ & Ha & _ & Hl & _).
  exists p, q. split; assumption.
Defined.

(** [turn_hand_over] at the first shot of the default game, which ends the
    turn: "Player 1" becomes the last player. *)
Lemma turn_hand_over_witness :
  active_idx_derived demo_processed /\
  turn_over (demo_build demo_initial demo_shot) = true /\
  advance demo_timestamp demo_elapsed demo_next demo_processed demo_shot =
    Ok (demo_second_turn, demo_shot) /\
  last_player demo_second_turn = active_player demo_processed.
Proof.
  assert (Hd : active_idx_derived demo_processed) by reflexivity.
  split; [exact Hd |]. split; [reflexivity |]. split; [reflexivity |].
  destruct (@turn_hand_over unit unit demo_timestamp demo_elapsed
              demo_next demo_processed
              demo_second_turn demo_shot demo_shot
              (demo_build demo_initial demo_shot)
              Hd eq_refl eq_refl eq_refl)
    as (_ & _ & H & _).
  exact (H eq_refl).
Defined.

(** [cueball_is_a_ball] on the balls "red" and "yellow". *)
Lemma cueball_is_a_ball_witness :
  cueable demo_constraints = None /\
  completed (cueball demo_constraints [("red", tt); ("yellow", tt)]) = true /\
  forall k,
    cueball demo_constraints [("red", tt); ("yellow", tt)] = Ok k ->
    In k ["red"; "yellow"].
Proof.
  split; [reflexivity |].
  exact (@cueball_is_a_ball unit demo_constraints
           [("red", tt); ("yellow", tt)] eq_refl).
Defined.

End Ruleset.
